(** * Voc-trainer: the vocabulary parser, the vocabulary store and the
      flashcard session of [Thoreaii.py]

    The Streamlit script is embedded block by block.  Python strings are
    sequences of Unicode code points; a pandas DataFrame with the columns
    [word] and [translation] is the list of its rows; the pieces of
    [st.session_state] form a record; the CSV file on disk is part of the
    state. *)

From stdpp Require Import base tactics decidable option numbers list strings pretty.
From Stdlib Require Import ZArith Lia.

Set Default Proof Using "Type".

(** ** Python [str] *)

Module PyStr.

(** A character is its code point. *)
Definition char := N.
Definition str := list char.

Local Open Scope N_scope.

(** [str.isspace] on one character: the code points CPython's
    [_PyUnicode_IsWhitespace] accepts. *)
Definition isspace (c : char) : bool :=
  ((9 <=? c) && (c <=? 13)) || ((28 <=? c) && (c <=? 32))
  || (c =? 133) || (c =? 160) || (c =? 5760)
  || ((8192 <=? c) && (c <=? 8202))
  || (c =? 8232) || (c =? 8233) || (c =? 8239) || (c =? 8287)
  || (c =? 12288).

(** The line boundaries of [str.splitlines], apart from the pair
    carriage return, line feed, which [splitlines] treats as one. *)
Definition is_linebreak (c : char) : bool :=
  ((10 <=? c) && (c <=? 13)) || ((28 <=? c) && (c <=? 30))
  || (c =? 133) || (c =? 8232) || (c =? 8233).

Fixpoint lstrip (s : str) : str :=
  match s with
  | [] => []
  | c :: s' => if isspace c then lstrip s' else s
  end.

Definition rstrip (s : str) : str := rev (lstrip (rev s)).

(** [s.strip()] *)
Definition strip (s : str) : str := rstrip (lstrip s).

(** [s.startswith(p)] *)
Fixpoint startswith (p s : str) : bool :=
  match p, s with
  | [], _ => true
  | _ :: _, [] => false
  | a :: p', b :: s' => (a =? b) && startswith p' s'
  end.

(** [s.find(sub)]: the lowest index at which [sub] occurs, if any. *)
Fixpoint find (sub s : str) : option nat :=
  if startswith sub s then Some 0%nat
  else match s with
       | [] => None
       | _ :: s' => S <$> find sub s'
       end.

(** [sub in s] *)
Definition contains (sub s : str) : bool :=
  match find sub s with Some _ => true | None => false end.

(** [s.split(sep, 1)] for a non-empty [sep]. *)
Definition split1 (sep s : str) : list str :=
  match find sep s with
  | Some i => [take i s; drop (i + length sep) s]
  | None => [s]
  end.

(** [s.splitlines()]; [cur] is the current line, reversed. *)
Fixpoint splitlines_from (cur s : str) : list str :=
  match s with
  | [] => match cur with [] => [] | _ => [rev cur] end
  | c :: s' =>
      if c =? 13 then
        match s' with
        | 10 :: s'' => rev cur :: splitlines_from [] s''
        | _ => rev cur :: splitlines_from [] s'
        end
      else if is_linebreak c then rev cur :: splitlines_from [] s'
      else splitlines_from (c :: cur) s'
  end.

Definition splitlines (s : str) : list str := splitlines_from [] s.

(** Truth value of a string: [if s:] *)
Definition truthy (s : str) : bool :=
  match s with [] => false | _ => true end.

(** [sub] occurs somewhere in [s]. *)
Definition occurs (sub s : str) : Prop := ∃ a b, s = a ++ sub ++ b.

(** ASCII literals for examples. *)
Fixpoint lit (s : string) : str :=
  match s with
  | EmptyString => []
  | String c s' => Ascii.N_of_ascii c :: lit s'
  end.
Global Arguments lit s%_string.

End PyStr.

Import PyStr.

(** ** The line parser *)

(** [" - "], the same with an en dash, with an em dash, [":"], ["="]. *)
Definition SUPPORTED_SEPARATORS : list str :=
  [ [32; 45; 32]; [32; 8211; 32]; [32; 8212; 32]; [58]; [61] ]%N.

(** What is made of the two parts of a line: both are trimmed, and an empty
    one discards the line. *)
Definition cut_result (left right : str) : option (str * str) :=
  let word := strip left in
  let translation := strip right in
  if truthy word && truthy translation
  then Some (word, translation) else None.

(** The loop [for sep in SUPPORTED_SEPARATORS] with its [break]: the first
    separator contained in [line] decides, the others are never looked at. *)
Fixpoint scan_separators (seps : list str) (line : str) : option (str * str) :=
  match seps with
  | [] => None
  | sep :: seps' =>
      if contains sep line then
        match split1 sep line with
        | [word; translation] => cut_result word translation
        | _ => None
        end
      else scan_separators seps' line
  end.

(** The body of the loop over the lines. *)
Definition parse_line (line : str) : option (str * str) :=
  let line := strip line in
  if truthy line then scan_separators SUPPORTED_SEPARATORS line else None.

Definition parse_vocabulary (text : str) : list (str * str) :=
  foldl (fun vocab_pairs line =>
           match parse_line line with
           | Some entry => vocab_pairs ++ [entry]
           | None => vocab_pairs
           end) [] (splitlines text).

(** ** The DataFrame of the store *)

(** A value in a column.  Rows built from parsed pairs hold strings; a frame
    read back from the CSV file may hold what pandas infers instead: the
    missing value, a 64-bit integer, a boolean.  The reader types a column
    as a whole, so integers and booleans never share a column, and two
    values of a column are equal for pandas exactly when they are equal
    here (a missing value counts as equal to a missing value when
    duplicates are looked for). *)
Inductive cell :=
  | CStr (s : str)
  | CNaN
  | CInt (n : Z)
  | CBool (b : bool).

#[global] Instance cell_eq_dec : EqDecision cell.
Proof. solve_decision. Defined.

(** One row: the [word] and the [translation] column. *)
Definition row := (cell * cell)%type.

(** A frame with the columns [word] and [translation]; rows are addressed
    by position, so [reset_index(drop=True)] has nothing to do. *)
Abbreviation DataFrame := (list row).

(** [pd.DataFrame(columns=["word", "translation"])] *)
Definition empty_frame : DataFrame := [].

(** [pd.DataFrame(all_vocab, columns=["word", "translation"])] *)
Definition frame_of_pairs (all_vocab : list (str * str)) : DataFrame :=
  (λ p, (CStr p.1, CStr p.2)) <$> all_vocab.

(** [df.empty] *)
Definition is_empty (df : DataFrame) : bool :=
  match df with [] => true | _ => false end.

(** [pd.concat([a, b])] *)
Definition concat_frames (a b : DataFrame) : DataFrame := a ++ b.

(** [df.duplicated()], with [keep="first"]: a row is marked when an equal
    row stands before it.  [seen] are the rows passed so far. *)
Fixpoint duplicated_from (seen : list row) (df : DataFrame) : list bool :=
  match df with
  | [] => []
  | r :: df' => bool_decide (r ∈ seen) :: duplicated_from (r :: seen) df'
  end.

Definition duplicated (df : DataFrame) : list bool := duplicated_from [] df.

(** [df[~mask]] *)
Fixpoint unmarked (mask : list bool) (df : DataFrame) : DataFrame :=
  match mask, df with
  | m :: mask', r :: df' =>
      if m then unmarked mask' df' else r :: unmarked mask' df'
  | _, _ => []
  end.

(** [df.drop_duplicates()] *)
Definition drop_duplicates (df : DataFrame) : DataFrame :=
  unmarked (duplicated df) df.

(** ** Failures *)

Inductive exn :=
  | EmptyDataError
  | ParserError
  | UnicodeDecodeError
  | FileNotFoundError
  | IndexError
  | ZeroDivisionError.

(** What a call does: it returns, it raises, or it leaves what this
    development describes ([Unmodelled]: a frame with other columns than
    [word] and [translation], or a column of floating-point numbers). *)
Inductive outcome (A : Type) :=
  | Returns (a : A)
  | Raises (e : exn)
  | Unmodelled.
Arguments Returns {A} a.
Arguments Raises {A} e.
Arguments Unmodelled {A}.

Definition bind {A B} (m : outcome A) (k : A → outcome B) : outcome B :=
  match m with
  | Returns a => k a
  | Raises e => Raises e
  | Unmodelled => Unmodelled
  end.

Notation "x ←! m ; k" := (bind m (λ x, k))
  (at level 100, m at next level, right associativity, only parsing).

(** ** The CSV file: [DataFrame.to_csv] and [pd.read_csv]

    Both are pandas calls with their default arguments ([index=False] for
    the writer).  They are described for frames with the columns [word] and
    [translation]: the writer as [csv.writer] with minimal quoting, the
    reader as the C tokenizer (comma, double quote, doubled quotes inside
    quoted fields, LF or CRLF line ends, blank lines skipped) followed by
    the default missing-value markers and the type inference of each
    column. *)

Module Csv.

Local Open Scope N_scope.

Definition COMMA : char := 44.
Definition QUOTE : char := 34.
Definition LF : char := 10.
Definition CR : char := 13.

(** *** Writing *)

Definition special (c : char) : bool :=
  (c =? COMMA) || (c =? QUOTE) || (c =? LF) || (c =? CR).

Definition quote_field (s : str) : str :=
  if existsb special s
  then QUOTE :: foldr (λ c acc, if c =? QUOTE then QUOTE :: QUOTE :: acc
                                 else c :: acc) [QUOTE] s
  else s.

Definition write_row (w t : str) : str :=
  quote_field w ++ COMMA :: quote_field t ++ [LF].

(** A missing value is written as the empty field. *)
Definition format_cell (c : cell) : str :=
  match c with
  | CStr s => s
  | CNaN => []
  | CInt n => lit (pretty n)
  | CBool true => lit "True"
  | CBool false => lit "False"
  end.

Definition to_csv (df : DataFrame) : str :=
  write_row (lit "word") (lit "translation")
  ++ foldr (λ r acc, write_row (format_cell r.1) (format_cell r.2) ++ acc)
           [] df.

(** *** Tokenizing *)

Inductive state :=
  | START_RECORD
  | WHITESPACE_LINE
  | START_FIELD
  | IN_FIELD
  | IN_QUOTED_FIELD
  | QUOTE_IN_QUOTED_FIELD
  | EAT_CRNL
  | EAT_CRNL_NOP.

(** The finished lines, the finished fields of the current line and the
    characters of the current field, each latest first. *)
Record tokenizer := {
  lines : list (list str);
  fields : list str;
  word : list char;
  mode : state
}.

Definition push (c : char) (st : state) (t : tokenizer) : tokenizer :=
  {| lines := lines t; fields := fields t; word := c :: word t; mode := st |}.

Definition goto (st : state) (t : tokenizer) : tokenizer :=
  {| lines := lines t; fields := fields t; word := word t; mode := st |}.

Definition end_field (st : state) (t : tokenizer) : tokenizer :=
  {| lines := lines t; fields := rev (word t) :: fields t; word := [];
     mode := st |}.

Definition end_line (st : state) (t : tokenizer) : tokenizer :=
  {| lines := rev (fields t) :: lines t; fields := []; word := [];
     mode := st |}.

Definition drop_word (st : state) (t : tokenizer) : tokenizer :=
  {| lines := lines t; fields := fields t; word := []; mode := st |}.

Definition in_field (c : char) (t : tokenizer) : tokenizer :=
  if c =? LF then end_line START_RECORD (end_field START_RECORD t)
  else if c =? CR then end_field EAT_CRNL t
  else if c =? COMMA then end_field START_FIELD t
  else push c IN_FIELD t.

Definition start_field (c : char) (t : tokenizer) : tokenizer :=
  if c =? QUOTE then goto IN_QUOTED_FIELD t else in_field c t.

(** One character.  A carriage return that is not followed by a line
    feed, outside a quoted field, is not described. *)
Definition step (c : char) (t : tokenizer) : outcome tokenizer :=
  match mode t with
  | START_RECORD =>
      if c =? LF then Returns t
      else if c =? CR then Returns (goto EAT_CRNL_NOP t)
      else if (c =? 32) || (c =? 9) then Returns (push c WHITESPACE_LINE t)
      else Returns (start_field c t)
  | WHITESPACE_LINE =>
      if c =? LF then Returns (drop_word START_RECORD t)
      else if c =? CR then Returns (drop_word EAT_CRNL_NOP t)
      else if (c =? 32) || (c =? 9) then Returns (push c WHITESPACE_LINE t)
      else Returns (in_field c t)
  | START_FIELD => Returns (start_field c t)
  | IN_FIELD => Returns (in_field c t)
  | IN_QUOTED_FIELD =>
      if c =? QUOTE then Returns (goto QUOTE_IN_QUOTED_FIELD t)
      else Returns (push c IN_QUOTED_FIELD t)
  | QUOTE_IN_QUOTED_FIELD =>
      if c =? QUOTE then Returns (push c IN_QUOTED_FIELD t)
      else Returns (in_field c t)
  | EAT_CRNL =>
      if c =? LF then Returns (end_line START_RECORD t) else Unmodelled
  | EAT_CRNL_NOP =>
      if c =? LF then Returns (goto START_RECORD t) else Unmodelled
  end.

(** The end of the input. *)
Definition handle_eof (t : tokenizer) : outcome (list (list str)) :=
  match mode t with
  | START_RECORD | WHITESPACE_LINE | EAT_CRNL_NOP => Returns (rev (lines t))
  | IN_QUOTED_FIELD => Raises ParserError
  | EAT_CRNL => Returns (rev (lines (end_line START_RECORD t)))
  | START_FIELD | IN_FIELD | QUOTE_IN_QUOTED_FIELD =>
      Returns (rev (lines (end_line START_RECORD (end_field START_RECORD t))))
  end.

Fixpoint tokenize_from (t : tokenizer) (s : str) : outcome (list (list str)) :=
  match s with
  | [] => handle_eof t
  | c :: s' => t' ←! step c t; tokenize_from t' s'
  end.

Definition tokenize (s : str) : outcome (list (list str)) :=
  tokenize_from
    {| lines := []; fields := []; word := []; mode := START_RECORD |} s.

(** *** Missing values and type inference *)

(** The default [na_values]: the empty field and these markers. *)
Definition NA_VALUES : list str :=
  [] :: (lit <$> [ "#N/A"; "#N/A N/A"; "#NA"; "-1.#IND"; "-1.#QNAN"; "-NaN";
                   "-nan"; "1.#IND"; "1.#QNAN"; "<NA>"; "N/A"; "NA"; "NULL";
                   "NaN"; "None"; "n/a"; "nan"; "null" ]%string).

Definition is_na (s : str) : bool := bool_decide (s ∈ NA_VALUES).

(** C [isspace]. *)
Definition c_space (c : char) : bool :=
  ((9 <=? c) && (c <=? 13)) || (c =? 32).

Fixpoint c_ltrim (s : str) : str :=
  match s with
  | [] => []
  | c :: s' => if c_space c then c_ltrim s' else s
  end.

Definition c_trim (s : str) : str := rev (c_ltrim (rev (c_ltrim s))).

Definition is_digit (c : char) : bool := (48 <=? c) && (c <=? 57).

Fixpoint digits_value (acc : Z) (s : str) : option Z :=
  match s with
  | [] => Some acc
  | c :: s' =>
      if is_digit c then digits_value (10 * acc + Z.of_N (c - 48))%Z s'
      else None
  end.

Definition unsigned (s : str) : str :=
  match s with
  | 43 :: s' | 45 :: s' => s'
  | _ => s
  end.

(** An integer literal: an optional sign and at least one digit. *)
Definition int_literal (s : str) : option Z :=
  match c_trim s with
  | 45 :: (_ :: _) as ds => Z.opp <$> digits_value 0 ds
  | 43 :: (_ :: _) as ds => digits_value 0 ds
  | (_ :: _) as ds => digits_value 0 ds
  | [] => None
  end.

Definition in_int64 (n : Z) : bool :=
  ((- 2 ^ 63 <=? n) && (n <? 2 ^ 63))%Z.

Fixpoint skip_digits (s : str) : nat * str :=
  match s with
  | c :: s' =>
      if is_digit c then let '(n, r) := skip_digits s' in (S n, r)
      else (0%nat, s)
  | [] => (0%nat, [])
  end.

Definition lower (c : char) : char :=
  if (65 <=? c) && (c <=? 90) then c + 32 else c.

(** What the reader takes for a floating-point number: digits with an
    optional fraction and exponent, or an infinity. *)
Definition float_literal (s : str) : bool :=
  let s := unsigned (c_trim s) in
  let '(n1, r1) := skip_digits s in
  let '(n2, r2) := match r1 with
                   | 46 :: r => skip_digits r
                   | _ => (0%nat, r1)
                   end in
  let mantissa := negb (Nat.eqb (n1 + n2) 0) in
  let exponent :=
    match r2 with
    | [] => true
    | e :: r =>
        if (e =? 101) || (e =? 69) then
          let '(n3, r3) := skip_digits (unsigned r) in
          negb (Nat.eqb n3 0) && negb (truthy r3)
        else false
    end in
  (mantissa && exponent)
  || bool_decide (lower <$> s = lit "inf")
  || bool_decide (lower <$> s = lit "infinity").

Definition bool_literal (s : str) : option bool :=
  if bool_decide (s ∈ lit <$> ["True"; "TRUE"; "true"]%string) then Some true
  else if bool_decide (s ∈ lit <$> ["False"; "FALSE"; "false"]%string)
       then Some false
  else None.

(** One column.  A marker of a missing value always becomes [CNaN]; the
    other values become integers when all of them are integer literals
    and none is missing, booleans when all of them are boolean literals,
    and stay strings otherwise.  A column that pandas would store as
    [float64] is not described. *)
Definition convert_column (values : list str) : outcome (list cell) :=
  let present := filter (λ v, is_na v = false) values in
  let with_nan (f : str → cell) :=
    (λ v, if is_na v then CNaN else f v) <$> values in
  match present with
  | [] => Returns (with_nan CStr)
  | _ =>
      match mapM int_literal present with
      | Some ns =>
          if forallb in_int64 ns && bool_decide (present = values)
          then Returns (CInt <$> ns) else Unmodelled
      | None =>
          if forallb float_literal present then Unmodelled
          else match mapM bool_literal present with
               | Some _ =>
                   Returns (with_nan (λ v, CBool (default false (bool_literal v))))
               | None => Returns (with_nan CStr)
               end
      end
  end.

(** A short line is filled up with missing values. *)
Definition field (i : nat) (line : list str) : str := default [] (line !! i).

Definition read_csv (text : str) : outcome DataFrame :=
  all ←! tokenize text;
  match all with
  | [] => Raises EmptyDataError
  | header :: body =>
      if bool_decide (header = [lit "word"; lit "translation"]) then
        if forallb (λ l, (length l <=? 2)%nat) body then
          words ←! convert_column (field 0 <$> body);
          translations ←! convert_column (field 1 <$> body);
          Returns (zip words translations)
        else
          match body with
          | first :: _ =>
              if (length first <=? 2)%nat then Raises ParserError
              else Unmodelled
          | [] => Returns []
          end
      else Unmodelled
  end.

End Csv.

(** ** Persistent storage *)

(** What is found under [VOCAB_STORAGE_FILE]: nothing, a text, or bytes
    that do not decode. *)
Inductive file :=
  | Absent
  | Text (content : str)
  | Undecodable.

(** [os.path.exists(VOCAB_STORAGE_FILE)] *)
Definition path_exists (disk : file) : bool :=
  match disk with Absent => false | _ => true end.

(** [pd.read_csv(VOCAB_STORAGE_FILE)] *)
Definition pd_read_csv (disk : file) : outcome DataFrame :=
  match disk with
  | Absent => Raises FileNotFoundError
  | Text content => Csv.read_csv content
  | Undecodable => Raises UnicodeDecodeError
  end.

Definition load_saved_vocabularies (disk : file) : outcome DataFrame :=
  if path_exists disk then pd_read_csv disk else Returns empty_frame.

(** [df.to_csv(VOCAB_STORAGE_FILE, index=False)]: the file is replaced. *)
Definition save_vocabularies (df : DataFrame) : file := Text (Csv.to_csv df).

(** ** Session state *)

Record session_state := {
  vocab_df : DataFrame;
  flashcards : list row;
  current_index : Z;
  show_translation : bool
}.

(** [st.session_state] is empty ([None]) when a browser session begins. *)
Definition init_session_state (disk : file) (stored : option session_state)
  : outcome session_state :=
  match stored with
  | Some s => Returns s
  | None =>
      df ←! load_saved_vocabularies disk;
      Returns {| vocab_df := df; flashcards := []; current_index := 0;
                 show_translation := false |}
  end.

(** What the page shows in answer to an action. *)
Inductive message :=
  | recognised (n : nat)      (* success: "{len(new_df)} neue Vokabeln erkannt." *)
  | nothing_valid             (* warning: "Keine gültigen Vokabeln gefunden." *)
  | saved                     (* success: "Vokabeln wurden gespeichert." *)
  | removed                   (* success: "Alle Vokabeln wurden entfernt." *)
  | nothing_loaded            (* info: "Noch keine Vokabeln geladen." *)
  | load_first                (* warning: "Bitte zuerst Vokabeln laden." *)
  | card (number : Z) (total : nat) (front : cell) (back : option cell).

Inductive button :=
  | save_button
  | clear_button
  | start_button
  | toggle_button
  | next_button.

#[global] Instance button_eq_dec : EqDecision button.
Proof. solve_decision. Defined.

(** ** Upload: merging the parsed pairs into the store *)

(** [pd.concat([vocab_df, new_df]).drop_duplicates().reset_index(drop=True)] *)
Definition merge (vocab_df new_df : DataFrame) : DataFrame :=
  drop_duplicates (concat_frames vocab_df new_df).

(** The branch [if all_vocab: ... else: ...]. *)
Definition merge_upload (all_vocab : list (str * str)) (s : session_state)
  : session_state * list message :=
  match all_vocab with
  | [] => (s, [nothing_valid])
  | _ :: _ =>
      let new_df := frame_of_pairs all_vocab in
      ({| vocab_df := merge (vocab_df s) new_df;
          flashcards := flashcards s;
          current_index := current_index s;
          show_translation := show_translation s |},
       [recognised (length new_df)])
  end.

(** [uploaded_files] is given as the text [extract_text_from_pdf] returns
    for each file. *)
Definition upload_block (uploaded_files : list str) (s : session_state)
  : session_state * list message :=
  match uploaded_files with
  | [] => (s, [])
  | _ :: _ =>
      merge_upload
        (foldl (λ all_vocab text, all_vocab ++ parse_vocabulary text)
               [] uploaded_files) s
  end.

(** ** Overview: saving and clearing *)

Definition clear_vocabularies (s : session_state) : session_state :=
  {| vocab_df := empty_frame;
     flashcards := [];
     current_index := current_index s;
     show_translation := show_translation s |}.

(** The two buttons exist only while the store is not empty. *)
Definition overview_block (clicked : option button) (disk : file)
    (s : session_state) : file * session_state * list message :=
  if negb (is_empty (vocab_df s)) then
    let '(disk, m1) :=
      if bool_decide (clicked = Some save_button)
      then (save_vocabularies (vocab_df s), [saved]) else (disk, []) in
    let '(s, m2) :=
      if bool_decide (clicked = Some clear_button)
      then (clear_vocabularies s, [removed]) else (s, []) in
    (disk, s, m1 ++ m2)
  else (disk, s, [nothing_loaded]).

(** ** Flashcards *)

(** [x[i], x[j] = x[j], x[i]] *)
Definition swap {A} (i j : nat) (x : list A) : list A :=
  match x !! i, x !! j with
  | Some a, Some b => <[i:=b]> (<[j:=a]> x)
  | _, _ => x
  end.

(** The shuffle behind [sample]: for [i] from [n - 1] down to [1], swap
    position [i] with a position drawn from [0..i].  [draws] are the
    numbers the generator hands out, each reduced to its range. *)
Fixpoint shuffle {A} (i : nat) (draws : list nat) (x : list A) : list A :=
  match i with
  | 0 => x
  | S i' => shuffle i' (tl draws) (swap i (hd 0 draws `mod` S i) x)
  end.

Definition permutation (draws : list nat) (n : nat) : list nat :=
  shuffle (n - 1) draws (seq 0 n).

(** [df.take(locs)] *)
Definition take_rows (locs : list nat) (df : DataFrame) : outcome DataFrame :=
  match mapM (λ i, df !! i) locs with
  | Some rows => Returns rows
  | None => Raises IndexError
  end.

(** [df.sample(frac=1)] *)
Definition sample_frac1 (draws : list nat) (df : DataFrame)
  : outcome DataFrame :=
  take_rows (permutation draws (length df)) df.

(** The body of [if st.button("Lernmodus starten")]. *)
Definition start_session (draws : list nat) (s : session_state)
  : outcome (session_state * list message) :=
  if is_empty (vocab_df s) then Returns (s, [load_first])
  else
    cards ←! sample_frac1 draws (vocab_df s);
    Returns ({| vocab_df := vocab_df s;
                flashcards := cards;
                current_index := 0;
                show_translation := false |}, []).

Definition start_block (clicked : option button) (draws : list nat)
    (s : session_state) : outcome (session_state * list message) :=
  if bool_decide (clicked = Some start_button) then start_session draws s
  else Returns (s, []).

(** [l[i]] for a Python list. *)
Definition getitem {A} (l : list A) (i : Z) : outcome A :=
  let n := Z.of_nat (length l) in
  let j := if (i <? 0)%Z then (i + n)%Z else i in
  if ((0 <=? j) && (j <? n))%Z then
    match l !! Z.to_nat j with
    | Some a => Returns a
    | None => Raises IndexError
    end
  else Raises IndexError.

(** [a % b] on Python integers. *)
Definition py_mod (a b : Z) : outcome Z :=
  if (b =? 0)%Z then Raises ZeroDivisionError else Returns (a `mod` b)%Z.

Definition toggle_translation (s : session_state) : session_state :=
  {| vocab_df := vocab_df s;
     flashcards := flashcards s;
     current_index := current_index s;
     show_translation := negb (show_translation s) |}.

(** The body of [if st.button("Nächste Karte")]. *)
Definition next_card (s : session_state) : outcome session_state :=
  i ←! py_mod (current_index s + 1) (Z.of_nat (length (flashcards s)));
  Returns {| vocab_df := vocab_df s;
             flashcards := flashcards s;
             current_index := i;
             show_translation := false |}.

(** [n] clicks on the button, one run after the other. *)
Fixpoint next_cards (n : nat) (s : session_state) : outcome session_state :=
  match n with
  | 0 => Returns s
  | S n' => s' ←! next_card s; next_cards n' s'
  end.

(** The position points at a card whenever there are cards. *)
Definition position_in_range (s : session_state) : Prop :=
  flashcards s ≠ [] →
  (0 ≤ current_index s < Z.of_nat (length (flashcards s)))%Z.

(** The block [if st.session_state.flashcards: ...]: the card is shown as
    the state stands, then a click takes effect. *)
Definition flashcard_block (clicked : option button) (s : session_state)
  : outcome (session_state * list message) :=
  match flashcards s with
  | [] => Returns (s, [])
  | _ :: _ =>
      c ←! getitem (flashcards s) (current_index s);
      let view := card (current_index s + 1) (length (flashcards s)) c.1
                       (if show_translation s then Some c.2 else None) in
      let s := if bool_decide (clicked = Some toggle_button)
               then toggle_translation s else s in
      s ←! (if bool_decide (clicked = Some next_button)
             then next_card s else Returns s);
      Returns (s, [view])
  end.

(** ** One run of the script *)

(** What outlives a run: the file and [st.session_state]. *)
Record world := {
  disk : file;
  session : option session_state
}.

(** What the user did before the run: the files in the uploader, the button
    pressed, and the numbers the random generator will hand out. *)
Record interaction := {
  uploaded_files : list str;
  clicked : option button;
  draws : list nat
}.

Inductive fault :=
  | raised (e : exn)
  | not_described.

Definition fault_of {A} (m : outcome A) : option fault :=
  match m with
  | Returns _ => None
  | Raises e => Some (raised e)
  | Unmodelled => Some not_described
  end.

(** The world a run leaves, what it showed, and the failure that ended it
    early, if any.  Assignments made before a failure stay. *)
Record run := {
  after : world;
  shown : list message;
  stopped : option fault
}.

Definition script (i : interaction) (w : world) : run :=
  match init_session_state (disk w) (session w) with
  | Returns s =>
      let '(s, m1) := upload_block (uploaded_files i) s in
      let '(d, s, m2) := overview_block (clicked i) (disk w) s in
      match start_block (clicked i) (draws i) s with
      | Returns (s, m3) =>
          match flashcard_block (clicked i) s with
          | Returns (s, m4) =>
              {| after := {| disk := d; session := Some s |};
                 shown := m1 ++ m2 ++ m3 ++ m4; stopped := None |}
          | failed =>
              {| after := {| disk := d; session := Some s |};
                 shown := m1 ++ m2 ++ m3; stopped := fault_of failed |}
          end
      | failed =>
          {| after := {| disk := d; session := Some s |};
             shown := m1 ++ m2; stopped := fault_of failed |}
      end
  | failed => {| after := w; shown := []; stopped := fault_of failed |}
  end.

(** The worlds a browser session can be in: it begins with an empty
    [st.session_state] over any file, and goes on run by run. *)
Inductive reachable : world → Prop :=
  | reachable_begin d : reachable {| disk := d; session := None |}
  | reachable_run i w : reachable w → reachable (after (script i w)).

(** ** Text extraction *)

(** What [pdfplumber] makes of a page: [page.extract_text()] returns a text
    or [None], or raises. *)
Inductive page :=
  | page_text (t : option str)
  | page_fails.

(** What it makes of an uploaded file: [pdfplumber.open] raises, or there
    are pages. *)
Inductive pdf :=
  | unreadable
  | readable (pages : list page).

(** The loop over [pdf.pages]: the text so far, and whether the loop ended
    in an exception. *)
Fixpoint extract_pages (text : str) (pages : list page) : str * bool :=
  match pages with
  | [] => (text, false)
  | page_text None :: pages' => extract_pages text pages'
  | page_text (Some t) :: pages' =>
      if truthy t then extract_pages (text ++ t ++ [10%N]) pages'
      else extract_pages text pages'
  | page_fails :: _ => (text, true)
  end.

(** The text, and whether [st.error] was shown: the exception is caught and
    what was read before it is returned. *)
Definition extract_text_from_pdf (file : pdf) : str * bool :=
  match file with
  | unreadable => ([], true)
  | readable pages => extract_pages [] pages
  end.

(** The texts of the pages before the first page that fails; pages without
    text leave nothing. *)
Fixpoint texts_before_failure (pages : list page) : list str :=
  match pages with
  | [] => []
  | page_text None :: pages' => texts_before_failure pages'
  | page_text (Some t) :: pages' => t :: texts_before_failure pages'
  | page_fails :: _ => []
  end.

(** The loop over [uploaded_files]: each file is read and parsed, and the
    pairs of all files are collected. *)
Definition collect_vocabulary (files : list pdf) : list (str * str) :=
  foldl (λ all_vocab file,
           all_vocab ++ parse_vocabulary (extract_text_from_pdf file).1)
        [] files.

(** What a click in the flashcard block makes of the state. *)
Definition clicked_state (click : option button) (s : session_state)
  : session_state :=
  if bool_decide (click = Some toggle_button) then toggle_translation s
  else if bool_decide (click = Some next_button) then
    {| vocab_df := vocab_df s; flashcards := flashcards s;
       current_index :=
         ((current_index s + 1) `mod` Z.of_nat (length (flashcards s)))%Z;
       show_translation := false |}
  else s.

(** A text that is empty or ends with a line feed, as the text of the loop
    over the pages always is. *)
Definition closed_text (text : str) : Prop :=
  text = [] ∨ ∃ u, text = u ++ [10%N].

(** ** Words that are read back as text *)

(** A string in which neither end is whitespace. *)
Definition trimmed (s : str) : Prop := strip s = s.


(** * Properties *)

(** ** Strings *)

Section strings.

Implicit Types (s sub sep a b : str) (i : nat).

Lemma startswith_app sub b : startswith sub (sub ++ b) = true.
Proof.
  induction sub as [|c sub IH]; [done|]. simpl.
  by rewrite N.eqb_refl, IH.
Qed.

Lemma startswith_inv sub s :
  startswith sub s = true → ∃ b, s = sub ++ b.
Proof.
  revert s. induction sub as [|c sub IH]; intros s H.
  - by exists s.
  - destruct s as [|d s]; [done|]. simpl in H.
    apply andb_prop in H as [Hc Hs]. apply N.eqb_eq in Hc as ->.
    destruct (IH _ Hs) as [b ->]. by exists b.
Qed.

Lemma find_Some sub s i :
  find sub s = Some i →
  s = take i s ++ sub ++ drop (i + length sub) s ∧ i ≤ length s.
Proof.
  revert i. induction s as [|c s IH]; intros i; simpl.
  - destruct (startswith sub []) eqn:E; [|done].
    intros [= <-]. apply startswith_inv in E as [b E].
    symmetry in E. apply app_eq_nil in E as [-> ->]. done.
  - destruct (startswith sub (c :: s)) eqn:E.
    + intros [= <-]. apply startswith_inv in E as [b E].
      rewrite E. simpl. split; [|lia].
      by rewrite drop_app_length.
    + destruct (find sub s) as [i'|] eqn:F; [|done].
      intros [= <-]. destruct (IH _ eq_refl) as [IH1 IH2].
      simpl. split; [|lia]. by rewrite <- IH1.
Qed.

Lemma find_least sub s i a b :
  find sub s = Some i → s = a ++ sub ++ b → i ≤ length a.
Proof.
  revert i a. induction s as [|c s IH]; intros i a; simpl.
  - destruct (startswith sub []); [|done]. intros [= <-]. lia.
  - destruct (startswith sub (c :: s)) eqn:E.
    + intros [= <-]. lia.
    + destruct (find sub s) as [i'|] eqn:F; [|done].
      intros [= <-] Hs. destruct a as [|d a].
      * simpl in Hs. rewrite Hs, startswith_app in E. done.
      * simpl in Hs. injection Hs as -> ->.
        specialize (IH _ _ eq_refl eq_refl). simpl. lia.
Qed.

Lemma find_None sub s : find sub s = None → ¬ occurs sub s.
Proof.
  induction s as [|c s IH]; simpl.
  - destruct (startswith sub []) eqn:E; [done|].
    intros _ (a & b & Hs). symmetry in Hs.
    apply app_eq_nil in Hs as [-> Hs]. apply app_eq_nil in Hs as [-> ->].
    done.
  - destruct (startswith sub (c :: s)) eqn:E; [done|].
    destruct (find sub s) eqn:F; [done|].
    intros _ (a & b & Hs). destruct a as [|d a].
    + simpl in Hs. rewrite Hs, startswith_app in E. done.
    + simpl in Hs. injection Hs as -> ->.
      apply IH; [done|]. by exists a, b.
Qed.

(** [sub in s] decides whether [sub] occurs in [s]. *)
Lemma contains_occurs sub s : contains sub s = true ↔ occurs sub s.
Proof.
  unfold contains. destruct (find sub s) as [i|] eqn:F.
  - split; [intros _|done]. apply find_Some in F as [F _].
    by exists (take i s), (drop (i + length sub) s).
  - split; [done|]. intros H. by apply find_None in H.
Qed.

Lemma not_contains_occurs sub s : contains sub s = false ↔ ¬ occurs sub s.
Proof.
  rewrite <- contains_occurs. by destruct (contains sub s).
Qed.

(** [s.split(sep, 1)] cuts at the leftmost occurrence of [sep]. *)
Lemma split1_occurs sep s :
  occurs sep s →
  ∃ a b, split1 sep s = [a; b] ∧ s = a ++ sep ++ b
         ∧ ∀ a' b', s = a' ++ sep ++ b' → length a ≤ length a'.
Proof.
  intros H. apply contains_occurs in H. unfold contains, split1 in *.
  destruct (find sep s) as [i|] eqn:F; [|done].
  exists (take i s), (drop (i + length sep) s).
  destruct (find_Some _ _ _ F) as [Hs Hi].
  split; [done|]. split; [done|]. intros a' b' Hs'.
  rewrite length_take. pose proof (find_least _ _ _ _ _ F Hs'). lia.
Qed.

Lemma truthy_nil s : truthy s = false ↔ s = [].
Proof. by destruct s. Qed.

End strings.

(** ** The line parser *)

Section parser.

Implicit Types (line sep left right : str) (seps : list str).

Lemma scan_separators_none seps line :
  (∀ sep, sep ∈ seps → ¬ occurs sep line) →
  scan_separators seps line = None.
Proof.
  induction seps as [|sep seps IH]; intros H; [done|]. simpl.
  assert (contains sep line = false) as ->.
  { apply not_contains_occurs, H. left. }
  apply IH. intros sep' Hin. apply H. by right.
Qed.

Lemma scan_separators_first seps line i sep :
  seps !! i = Some sep →
  occurs sep line →
  (∀ j sep', j < i → seps !! j = Some sep' → ¬ occurs sep' line) →
  ∃ left right,
    line = left ++ sep ++ right
    ∧ (∀ left' right',
         line = left' ++ sep ++ right' → length left ≤ length left')
    ∧ scan_separators seps line = cut_result left right.
Proof.
  revert i. induction seps as [|sep0 seps IH]; intros i Hi Hocc Hbefore.
  - by rewrite lookup_nil in Hi.
  - destruct i as [|i]; simpl in *.
    + injection Hi as ->.
      destruct (split1_occurs _ _ Hocc) as (a & b & Hsplit & Hline & Hleast).
      exists a, b. split; [done|]. split; [done|].
      apply contains_occurs in Hocc. by rewrite Hocc, Hsplit.
    + assert (contains sep0 line = false) as ->.
      { apply not_contains_occurs, (Hbefore 0); [lia|done]. }
      apply (IH i); [done..|].
      intros j sep' Hj Hlook. apply (Hbefore (S j)); [lia|done].
Qed.

Lemma separators_not_empty sep : sep ∈ SUPPORTED_SEPARATORS → sep ≠ [].
Proof.
  unfold SUPPORTED_SEPARATORS. rewrite !elem_of_cons, elem_of_nil.
  intros [->|[->|[->|[->|[->|[]]]]]]; done.
Qed.

Lemma occurs_not_empty sep s : sep ≠ [] → occurs sep s → s ≠ [].
Proof.
  intros Hsep (a & b & ->) H.
  apply app_eq_nil in H as [_ H]. apply app_eq_nil in H as [H _]. done.
Qed.

(** [parse_vocabulary] runs [parse_line] over the lines, in order. *)
Lemma parse_vocabulary_lines text :
  parse_vocabulary text = omap parse_line (splitlines text).
Proof.
  unfold parse_vocabulary.
  enough (∀ ls acc,
    foldl (λ vocab_pairs line,
             match parse_line line with
             | Some entry => vocab_pairs ++ [entry]
             | None => vocab_pairs
             end) acc ls = acc ++ omap parse_line ls) as H by apply H.
  induction ls as [|l ls IH]; intros acc; simpl.
  - by rewrite app_nil_r.
  - rewrite IH. destruct (parse_line l); [|done].
    by rewrite <- app_assoc.
Qed.

End parser.

(** C3.  For every line: with [trimmed] the line after trimming, if [sep] is
    the first separator of the priority list that occurs anywhere in
    [trimmed], then [trimmed] is cut once, at the leftmost occurrence of
    [sep], into [left] and [right]; both are trimmed; the pair of the two is
    the result when neither is empty, and when one is empty the line yields
    no pair whatever later separators it contains.  A line in which no
    separator of the list occurs yields no pair. *)
Theorem parse_line_first_separator (line : str) :
  let trimmed := strip line in
  (∀ i sep,
     SUPPORTED_SEPARATORS !! i = Some sep →
     occurs sep trimmed →
     (∀ j sep', j < i → SUPPORTED_SEPARATORS !! j = Some sep' →
                ¬ occurs sep' trimmed) →
     ∃ left right,
       trimmed = left ++ sep ++ right
       ∧ (∀ left' right',
            trimmed = left' ++ sep ++ right' → length left ≤ length left')
       ∧ (strip left ≠ [] → strip right ≠ [] →
          parse_line line = Some (strip left, strip right))
       ∧ (strip left = [] ∨ strip right = [] → parse_line line = None))
  ∧ ((∀ sep, sep ∈ SUPPORTED_SEPARATORS → ¬ occurs sep trimmed) →
     parse_line line = None).
Proof.
  intros trimmed. split.
  - intros i sep Hi Hocc Hbefore.
    destruct (scan_separators_first _ _ _ _ Hi Hocc Hbefore)
      as (left & right & Hcut & Hleast & Hscan).
    exists left, right. split; [done|]. split; [done|].
    assert (parse_line line = cut_result left right) as ->.
    { unfold parse_line. fold trimmed.
      assert (trimmed ≠ []) as Hne.
      { eapply occurs_not_empty; [|done].
        apply separators_not_empty. by eapply list_elem_of_lookup_2. }
      destruct trimmed; [done|]. done. }
    unfold cut_result. split.
    + intros Hl Hr. destruct (strip left), (strip right); done.
    + intros [-> | ->]; [done|]. by rewrite andb_false_r.
  - intros Hnone. unfold parse_line. fold trimmed.
    destruct (truthy trimmed); [|done].
    by apply scan_separators_none.
Qed.

Lemma parse_line_first_separator_witness :
  let line := lit " a=b=c " in
  let plain := lit "nosep here" in
  (occurs [61%N] (strip line)
   ∧ (∀ j sep', j < 4 → SUPPORTED_SEPARATORS !! j = Some sep' →
                ¬ occurs sep' (strip line))
   ∧ ∃ left right,
       strip line = left ++ [61%N] ++ right
       ∧ (∀ left' right',
            strip line = left' ++ [61%N] ++ right' →
            length left ≤ length left')
       ∧ (strip left ≠ [] → strip right ≠ [] →
          parse_line line = Some (strip left, strip right))
       ∧ (strip left = [] ∨ strip right = [] → parse_line line = None))
  ∧ ((∀ sep, sep ∈ SUPPORTED_SEPARATORS → ¬ occurs sep (strip plain))
     ∧ parse_line plain = None).
Proof.
  intros line plain.
  assert (∀ j sep', j < 4 → SUPPORTED_SEPARATORS !! j = Some sep' →
                    ¬ occurs sep' (strip line)) as Hbefore.
  { intros j sep' Hj Hlook. apply not_contains_occurs.
    destruct j as [|[|[|[|j]]]]; [..|lia];
      injection Hlook as <-; reflexivity. }
  assert (occurs [61%N] (strip line)) as Hocc.
  { apply contains_occurs. reflexivity. }
  assert (∀ sep, sep ∈ SUPPORTED_SEPARATORS → ¬ occurs sep (strip plain))
    as Hnone.
  { intros sep Hin. apply not_contains_occurs.
    unfold SUPPORTED_SEPARATORS in Hin.
    rewrite !elem_of_cons, elem_of_nil in Hin.
    destruct Hin as [->|[->|[->|[->|[->|[]]]]]]; reflexivity. }
  split.
  - split; [exact Hocc|]. split; [exact Hbefore|].
    exact (proj1 (parse_line_first_separator line) 4 [61%N] eq_refl
             Hocc Hbefore).
  - split; [exact Hnone|].
    exact (proj2 (parse_line_first_separator plain) Hnone).
Defined.

(** ** Dropping duplicates *)

Section drop_duplicates.

Implicit Types (r : row) (seen df a b : list row).

Local Abbreviation kept seen df := (unmarked (duplicated_from seen df) df).

Lemma kept_cons seen r df :
  kept seen (r :: df) =
    if decide (r ∈ seen) then kept (r :: seen) df
    else r :: kept (r :: seen) df.
Proof. simpl. unfold bool_decide. by destruct (decide_rel _ r seen). Qed.

(** Rows seen before only filter the result. *)
Lemma kept_seen_app s1 s2 df :
  kept (s1 ++ s2) df = filter (λ r, r ∉ s2) (kept s1 df).
Proof.
  revert s1. induction df as [|r df IH]; intros s1; [done|].
  rewrite !kept_cons. specialize (IH (r :: s1)). simpl in IH.
  destruct (decide (r ∈ s1 ++ s2)) as [Hin|Hin];
    destruct (decide (r ∈ s1)) as [H1|H1].
  - done.
  - apply elem_of_app in Hin as [?|H2]; [done|].
    rewrite filter_cons_False; [done|]. by intros ?.
  - exfalso. apply Hin, elem_of_app. by left.
  - apply not_elem_of_app in Hin as [_ H2].
    rewrite filter_cons_True; [by f_equal|done].
Qed.

Lemma kept_seen seen df :
  kept seen df = filter (λ r, r ∉ seen) (drop_duplicates df).
Proof. apply (kept_seen_app [] seen df). Qed.

Lemma drop_duplicates_cons r df :
  drop_duplicates (r :: df) = r :: filter (λ r', r' ≠ r) (drop_duplicates df).
Proof.
  unfold drop_duplicates, duplicated. rewrite kept_cons.
  rewrite decide_False by apply not_elem_of_nil.
  f_equal. rewrite kept_seen. apply list_filter_iff.
  intros r'. by rewrite list_elem_of_singleton.
Qed.

Lemma elem_of_drop_duplicates r df : r ∈ drop_duplicates df ↔ r ∈ df.
Proof.
  induction df as [|r0 df IH]; [done|].
  rewrite drop_duplicates_cons, !elem_of_cons, list_elem_of_filter, IH.
  destruct (decide (r = r0)) as [->|Hne]; [by split; [left|left]|].
  split; [intros [|[_ ?]]|intros [|]]; [done|by right|done|by right].
Qed.

Lemma NoDup_drop_duplicates df : NoDup (drop_duplicates df).
Proof.
  induction df as [|r df IH]; [constructor|].
  rewrite drop_duplicates_cons. apply NoDup_cons. split.
  - rewrite list_elem_of_filter. by intros [Hne _].
  - by apply NoDup_filter.
Qed.

Lemma filter_all (P : row → Prop) `{!∀ r, Decision (P r)} df :
  (∀ r, r ∈ df → P r) → filter P df = df.
Proof.
  induction df as [|r df IH]; intros Hall; [done|].
  rewrite filter_cons_True by (apply Hall; left).
  f_equal. apply IH. intros r' ?. apply Hall. by right.
Qed.

Lemma filter_none (P : row → Prop) `{!∀ r, Decision (P r)} df :
  (∀ r, r ∈ df → ¬ P r) → filter P df = [].
Proof.
  induction df as [|r df IH]; intros Hall; [done|].
  rewrite filter_cons_False by (apply Hall; left).
  apply IH. intros r' ?. apply Hall. by right.
Qed.

(** A frame without duplicates is left as it is. *)
Lemma drop_duplicates_NoDup df : NoDup df → drop_duplicates df = df.
Proof.
  induction 1 as [|r df Hr _ IH]; [done|].
  rewrite drop_duplicates_cons, IH. f_equal.
  apply filter_all. intros r' Hin ->. done.
Qed.

(** Rows of the first frame keep their places; of the second frame, the
    rows not in the first follow, first occurrences only. *)
Lemma drop_duplicates_app a b :
  drop_duplicates (a ++ b) =
    drop_duplicates a ++ filter (λ r, r ∉ a) (drop_duplicates b).
Proof.
  induction a as [|r a IH].
  - simpl. symmetry. apply filter_all. intros r _. apply not_elem_of_nil.
  - change ((r :: a) ++ b) with (r :: (a ++ b)).
    rewrite !drop_duplicates_cons, IH, filter_app.
    rewrite <- app_comm_cons. do 2 f_equal.
    rewrite list_filter_filter. apply list_filter_iff.
    intros r'. rewrite not_elem_of_cons. tauto.
Qed.

Lemma length_drop_duplicates df : length (drop_duplicates df) ≤ length df.
Proof.
  induction df as [|r df IH]; [done|].
  rewrite drop_duplicates_cons. simpl.
  pose proof (length_filter (λ r', r' ≠ r) (drop_duplicates df)). lia.
Qed.

Lemma drop_duplicates_sublist df : sublist (drop_duplicates df) df.
Proof.
  induction df as [|r df IH]; [constructor|].
  rewrite drop_duplicates_cons. constructor.
  etrans; [apply sublist_filter; apply _|done].
Qed.

End drop_duplicates.

(** ** Merging an upload into the store *)

Lemma duplicated_from_lookup seen (df : DataFrame) i r :
  df !! i = Some r →
  ∃ m, duplicated_from seen df !! i = Some m
       ∧ (m = true ↔ r ∈ seen ∨ r ∈ take i df).
Proof.
  revert seen i. induction df as [|r0 df IH]; intros seen i Hi; [done|].
  destruct i as [|i]; simpl in *.
  - injection Hi as ->. eexists. split; [done|].
    rewrite bool_decide_eq_true, elem_of_nil. tauto.
  - destruct (IH (r0 :: seen) i Hi) as (m & Hm & Hiff).
    exists m. split; [done|].
    rewrite Hiff, !elem_of_cons. tauto.
Qed.

(** C4.  The store after a merge holds no row twice.  It is the old store
    followed by the new rows, with every row dropped that has an equal row
    before it: first occurrences stay, in their order.  So the rows of the
    old store come first and the rows that are new to it follow; an old
    store without duplicates stays in place as it is.  The upload block
    assigns exactly this frame when pairs were parsed. *)
Theorem merge_no_duplicates (store new_df : DataFrame) :
  NoDup (merge store new_df)
  ∧ (∀ r, r ∈ merge store new_df ↔ r ∈ store ∨ r ∈ new_df)
  ∧ merge store new_df
    = unmarked (duplicated (store ++ new_df)) (store ++ new_df)
  ∧ (∀ i r, (store ++ new_df) !! i = Some r →
       ∃ m, duplicated (store ++ new_df) !! i = Some m
            ∧ (m = true ↔ r ∈ take i (store ++ new_df)))
  ∧ sublist (merge store new_df) (store ++ new_df)
  ∧ merge store new_df
    = drop_duplicates store
      ++ filter (λ r, r ∉ store) (drop_duplicates new_df)
  ∧ (NoDup store →
     merge store new_df
     = store ++ filter (λ r, r ∉ store) (drop_duplicates new_df))
  ∧ (∀ s pair pairs,
       vocab_df (merge_upload (pair :: pairs) s).1
       = merge (vocab_df s) (frame_of_pairs (pair :: pairs))).
Proof.
  unfold merge, concat_frames. repeat split.
  - apply NoDup_drop_duplicates.
  - rewrite elem_of_drop_duplicates. apply elem_of_app.
  - rewrite elem_of_drop_duplicates. apply elem_of_app.
  - intros i r Hi.
    destruct (duplicated_from_lookup [] _ _ _ Hi) as (m & Hm & Hiff).
    exists m. split; [done|]. rewrite Hiff, elem_of_nil. tauto.
  - apply drop_duplicates_sublist.
  - apply drop_duplicates_app.
  - intros Hstore. by rewrite drop_duplicates_app, drop_duplicates_NoDup.
Qed.

Lemma merge_no_duplicates_witness :
  let A := (CStr (lit "cat"), CStr (lit "Katze")) in
  let B := (CStr (lit "dog"), CStr (lit "Hund")) in
  NoDup [A] ∧ merge [A] [B; A; B] = [A; B].
Proof.
  intros A B.
  assert (NoDup [A]) as HA.
  { apply NoDup_singleton. }
  split; [exact HA|].
  destruct (merge_no_duplicates [A] [B; A; B])
    as (_ & _ & _ & _ & _ & _ & Hplace & _).
  rewrite (Hplace HA). reflexivity.
Defined.

(** C8.  Merging the same rows a second time changes nothing: for the
    frames, and for the upload block run twice on the same parsed pairs. *)
Theorem merge_idempotent (store new_df : DataFrame) :
  merge (merge store new_df) new_df = merge store new_df
  ∧ (∀ s all_vocab,
       (merge_upload all_vocab (merge_upload all_vocab s).1).1
       = (merge_upload all_vocab s).1).
Proof.
  assert (∀ a b : DataFrame, merge (merge a b) b = merge a b) as Hm.
  { intros a b. unfold merge, concat_frames.
    rewrite (drop_duplicates_app (drop_duplicates (a ++ b)) b).
    rewrite (drop_duplicates_NoDup (drop_duplicates (a ++ b)))
      by apply NoDup_drop_duplicates.
    rewrite filter_none; [apply app_nil_r|].
    intros r Hr Hnot. apply Hnot.
    rewrite elem_of_drop_duplicates in *. apply elem_of_app. by right. }
  split; [apply Hm|].
  intros s [|pair pairs]; [done|]. simpl. by rewrite Hm.
Qed.

(** C1, as the code has it.  When pairs were parsed, the upload block
    reports how many pairs were parsed, repeats and pairs already in the
    store included; the store grows by at most that number.  When none was
    parsed it reports no number and leaves the state as it is.  So merging
    [A; B; A], with [A] and [B] distinct, into an empty store reports 3 and
    stores [A; B], and merging a pair that a store without duplicates
    already has reports 1 and leaves the store as it is. *)
Theorem merge_upload_reports_parsed_count (s : session_state)
    (pair : str * str) (pairs : list (str * str)) :
  (merge_upload (pair :: pairs) s).2 = [recognised (length (pair :: pairs))]
  ∧ length (vocab_df (merge_upload (pair :: pairs) s).1)
    ≤ length (vocab_df s) + length (pair :: pairs)
  ∧ merge_upload [] s = (s, [nothing_valid])
  ∧ (∀ A B, A ≠ B → vocab_df s = [] →
       (merge_upload [A; B; A] s).2 = [recognised 3]
       ∧ vocab_df (merge_upload [A; B; A] s).1 = frame_of_pairs [A; B])
  ∧ (∀ A, NoDup (vocab_df s) → (CStr A.1, CStr A.2) ∈ vocab_df s →
       merge_upload [A] s = (s, [recognised 1])).
Proof.
  split; [|split; [|split; [|split]]]; [| |done| |].
  - cbn [merge_upload snd]. unfold frame_of_pairs. by rewrite length_fmap.
  - cbn [merge_upload fst vocab_df]. unfold merge, concat_frames.
    etrans; [apply length_drop_duplicates|].
    unfold frame_of_pairs. by rewrite length_app, length_fmap.
  - intros A B Hne Hs. split; [done|].
    cbn [merge_upload fst vocab_df]. rewrite Hs. unfold merge, concat_frames.
    rewrite app_nil_l. cbn [frame_of_pairs fmap list_fmap].
    rewrite !drop_duplicates_cons. cbn [drop_duplicates duplicated
      duplicated_from unmarked].
    assert ((CStr B.1, CStr B.2) ≠ (CStr A.1, CStr A.2)) as Hrow.
    { intros [= H1 H2]. apply Hne. destruct A, B. cbn in *. congruence. }
    rewrite filter_nil.
    rewrite (filter_cons_True (λ r', r' ≠ (CStr B.1, CStr B.2)))
      by (by intros ?).
    rewrite filter_nil, filter_cons_True by done.
    rewrite filter_cons_False by (by intros ?). done.
  - intros A Hnodup Hin. destruct s as [df cards idx shown].
    cbn [merge_upload vocab_df flashcards current_index show_translation] in *.
    do 2 f_equal. unfold merge, concat_frames.
    rewrite drop_duplicates_app, drop_duplicates_NoDup by done.
    rewrite filter_none; [apply app_nil_r|].
    intros r Hr Hnot. apply Hnot.
    apply elem_of_drop_duplicates in Hr.
    cbn [frame_of_pairs fmap list_fmap] in Hr.
    by apply list_elem_of_singleton in Hr as ->.
Qed.

Lemma merge_upload_reports_parsed_count_witness :
  let A := (lit "cat", lit "Katze") in
  let B := (lit "dog", lit "Hund") in
  let fresh := {| vocab_df := []; flashcards := []; current_index := 0;
                  show_translation := false |} in
  let filled := {| vocab_df := frame_of_pairs [A; B]; flashcards := [];
                   current_index := 0; show_translation := false |} in
  (A ≠ B ∧ vocab_df fresh = []
   ∧ (merge_upload [A; B; A] fresh).2 = [recognised 3]
   ∧ vocab_df (merge_upload [A; B; A] fresh).1 = frame_of_pairs [A; B])
  ∧ (NoDup (vocab_df filled) ∧ (CStr A.1, CStr A.2) ∈ vocab_df filled
     ∧ merge_upload [A] filled = (filled, [recognised 1])).
Proof.
  intros A B fresh filled.
  assert (A ≠ B) as Hne by discriminate.
  assert (NoDup (vocab_df filled)) as Hnodup.
  { apply NoDup_cons. split.
    - intros Hin. apply list_elem_of_singleton in Hin. discriminate.
    - apply NoDup_singleton. }
  assert ((CStr A.1, CStr A.2) ∈ vocab_df filled) as Hin by left.
  split.
  - split; [exact Hne|]. split; [reflexivity|].
    exact (proj1 (proj2 (proj2 (proj2
             (merge_upload_reports_parsed_count fresh A []))))
             A B Hne eq_refl).
  - split; [exact Hnodup|]. split; [exact Hin|].
    exact (proj2 (proj2 (proj2 (proj2
             (merge_upload_reports_parsed_count filled A []))))
             A Hnodup Hin).
Defined.

(** C1, as the claim has it, fails: three parsed pairs of which two are new
    are reported as three, and a pair already in the store as one. *)
Lemma merge_upload_report_counterexample :
  let A := (lit "cat", lit "Katze") in
  let B := (lit "dog", lit "Hund") in
  let fresh := {| vocab_df := []; flashcards := []; current_index := 0;
                  show_translation := false |} in
  let first := merge_upload [A; B; A] fresh in
  let second := merge_upload [A] first.1 in
  A ≠ B
  ∧ vocab_df first.1 = frame_of_pairs [A; B]
  ∧ first.2 = [recognised 3] ∧ first.2 ≠ [recognised 2]
  ∧ vocab_df second.1 = vocab_df first.1
  ∧ second.2 = [recognised 1] ∧ second.2 ≠ [recognised 0].
Proof. repeat split; (done || by vm_compute). Qed.

(** ** The flashcard session *)

Section session.

Implicit Types (s : session_state) (n : nat).

Local Open Scope Z_scope.

Lemma next_card_active s :
  flashcards s ≠ [] →
  next_card s
  = Returns {| vocab_df := vocab_df s;
               flashcards := flashcards s;
               current_index :=
                 (current_index s + 1) `mod` Z.of_nat (length (flashcards s));
               show_translation := false |}.
Proof.
  intros Hactive. unfold next_card, py_mod.
  destruct (flashcards s) as [|c cards] eqn:E; [done|]. done.
Qed.

Lemma length_active s : flashcards s ≠ [] → 0 < Z.of_nat (length (flashcards s)).
Proof. destruct (flashcards s); [done|]. simpl. lia. Qed.

(** [n] clicks: the cards and the store stay, the position moves on by [n]
    modulo the number of cards. *)
Lemma next_cards_active n s :
  flashcards s ≠ [] →
  ∃ s', next_cards n s = Returns s'
        ∧ flashcards s' = flashcards s
        ∧ vocab_df s' = vocab_df s
        ∧ current_index s' `mod` Z.of_nat (length (flashcards s))
          = (current_index s + Z.of_nat n) `mod` Z.of_nat (length (flashcards s))
        ∧ ((0 < n)%nat →
           0 ≤ current_index s' < Z.of_nat (length (flashcards s))
           ∧ show_translation s' = false).
Proof.
  revert s. induction n as [|n IH]; intros s Hactive.
  - exists s. repeat split; [by rewrite Z.add_0_r|lia..].
  - cbn [next_cards]. rewrite next_card_active by done. cbn [bind].
    set (s1 := {| vocab_df := vocab_df s |}).
    pose proof (length_active s Hactive) as Hlen.
    destruct (IH s1 Hactive) as (s' & Hrun & Hcards & Hdf & Hidx & Hpos).
    exists s'. cbn [flashcards vocab_df current_index s1] in *.
    split; [done|]. split; [done|]. split; [done|]. split.
    + rewrite Hidx, Zplus_mod_idemp_l. f_equal. lia.
    + intros _. destruct n as [|n].
      * injection Hrun as <-. cbn. split; [|done].
        by apply Z.mod_pos_bound.
      * apply Hpos. lia.
Qed.

End session.

(** C10.  In an active session the next-card step, once or any number of
    times, leaves the cards as they are, pair by pair and in their order,
    and the store too; only the position and the reveal flag are
    assigned. *)
Theorem next_card_keeps_cards (s : session_state) :
  flashcards s ≠ [] →
  (∃ i, next_card s
        = Returns {| vocab_df := vocab_df s; flashcards := flashcards s;
                     current_index := i; show_translation := false |})
  ∧ (∀ n, ∃ s', next_cards n s = Returns s'
                ∧ flashcards s' = flashcards s
                ∧ vocab_df s' = vocab_df s).
Proof.
  intros Hactive. split.
  - eexists. by apply next_card_active.
  - intros n.
    destruct (next_cards_active n s Hactive) as (s' & Hrun & Hc & Hdf & _).
    by exists s'.
Qed.

Lemma next_card_keeps_cards_witness :
  let A := (CStr (lit "cat"), CStr (lit "Katze")) in
  let B := (CStr (lit "dog"), CStr (lit "Hund")) in
  let s := {| vocab_df := [A]; flashcards := [B; A]; current_index := 0;
              show_translation := true |} in
  flashcards s ≠ []
  ∧ ∃ s', next_cards 5 s = Returns s' ∧ flashcards s' = [B; A]
          ∧ vocab_df s' = [A].
Proof.
  intros A B s.
  assert (flashcards s ≠ []) as Hactive by discriminate.
  split; [exact Hactive|].
  exact (proj2 (next_card_keeps_cards s Hactive) 5%nat).
Defined.

(** ** Starting a session *)

Section start.

Implicit Types (df : DataFrame) (draws locs : list nat).

Lemma swap_Permutation {A} i j (x : list A) : swap i j x ≡ₚ x.
Proof.
  unfold swap. destruct (x !! i) as [a|] eqn:Hi; [|done].
  destruct (x !! j) as [b|] eqn:Hj; [|done].
  by apply Permutation_insert_swap.
Qed.

Lemma shuffle_Permutation {A} i draws (x : list A) : shuffle i draws x ≡ₚ x.
Proof.
  revert draws x. induction i as [|i IH]; intros draws x; [done|].
  cbn [shuffle]. rewrite IH. apply swap_Permutation.
Qed.

Lemma Forall2_swap {A B} (R : A → B → Prop) i j l k :
  Forall2 R l k → Forall2 R (swap i j l) (swap i j k).
Proof.
  intros H. pose proof (Forall2_length _ _ _ H) as Hlen. unfold swap.
  destruct (l !! i) as [a|] eqn:Hi.
  - destruct (Forall2_lookup_l _ _ _ _ _ H Hi) as (a' & -> & Ha).
    destruct (l !! j) as [b|] eqn:Hj.
    + destruct (Forall2_lookup_l _ _ _ _ _ H Hj) as (b' & -> & Hb).
      apply Forall2_insert; [|done]. by apply Forall2_insert.
    + apply lookup_ge_None_1 in Hj.
      by rewrite (lookup_ge_None_2 k j) by lia.
  - apply lookup_ge_None_1 in Hi.
    by rewrite (lookup_ge_None_2 k i) by lia.
Qed.

Lemma mapM_shuffle {A B} (f : A → option B) i draws l k :
  mapM f l = Some k → mapM f (shuffle i draws l) = Some (shuffle i draws k).
Proof.
  rewrite !mapM_Some. revert draws l k.
  induction i as [|i IH]; intros draws l k H; [done|].
  cbn [shuffle]. by apply IH, Forall2_swap.
Qed.

(** With enough cards for position [i], or [i = 0]: whatever arrangement
    of [x] agrees with [x] beyond position [i] is produced by some
    draws. *)
Lemma shuffle_reaches {A} i (x target : list A) :
  x ≡ₚ target →
  i < length x ∨ i = 0 →
  (∀ k, i < k → x !! k = target !! k) →
  ∃ draws, shuffle i draws x = target.
Proof.
  revert x. induction i as [|i IH]; intros x Hp Hi Hk.
  - exists []. cbn. destruct x as [|a xs], target as [|b ts].
    + done.
    + by apply Permutation_nil_l in Hp.
    + by apply Permutation_nil_r in Hp.
    + assert (xs = ts) as ->.
      { apply list_eq. intros k. apply (Hk (S k)). lia. }
      f_equal. apply Permutation_singleton_inj.
      by apply (Permutation_app_inv_r ts [a] [b]).
  - destruct Hi as [Hi|?]; [|lia].
    pose proof (Permutation_length Hp) as Hlen.
    assert (drop (S (S i)) x = drop (S (S i)) target) as Hdrop.
    { apply list_eq. intros k. rewrite !lookup_drop. apply Hk. lia. }
    assert (take (S (S i)) x ≡ₚ take (S (S i)) target) as Htake.
    { apply (Permutation_app_inv_r (drop (S (S i)) x)).
      rewrite take_drop, Hdrop, take_drop. done. }
    destruct (lookup_lt_is_Some_2 target (S i)) as [t Ht]; [lia|].
    assert (t ∈ take (S (S i)) x) as Hin.
    { rewrite Htake. apply elem_of_take. exists (S i). split; [done|lia]. }
    apply elem_of_take in Hin as (j & Hj & Hjlt).
    destruct (lookup_lt_is_Some_2 x (S i)) as [a Ha]; [lia|].
    assert (swap (S i) j x = <[S i:=t]> (<[j:=a]> x)) as Hswap.
    { unfold swap. by rewrite Ha, Hj. }
    destruct (IH (swap (S i) j x)) as [draws Hd].
    + by rewrite swap_Permutation.
    + left. rewrite Hswap, !length_insert. lia.
    + intros k Hlt. rewrite Hswap. destruct (decide (k = S i)) as [->|Hne].
      * rewrite list_lookup_insert_eq by (rewrite length_insert; lia). done.
      * rewrite !list_lookup_insert_ne by lia. apply Hk. lia.
    + exists (j :: draws). cbn [shuffle hd tl].
      by rewrite Nat.mod_small by lia.
Qed.

Lemma permutation_Permutation draws n : permutation draws n ≡ₚ seq 0 n.
Proof. apply shuffle_Permutation. Qed.

Lemma mapM_lookup_seq (pre df : DataFrame) :
  mapM (λ i, (pre ++ df) !! i) (seq (length pre) (length df)) = Some df.
Proof.
  revert pre. induction df as [|r df IH]; intros pre; [done|].
  cbn [length seq mapM]. rewrite list_lookup_middle by done. cbn.
  specialize (IH (pre ++ [r])).
  rewrite <- app_assoc, length_app, Nat.add_1_r in IH. cbn in IH.
  by rewrite IH.
Qed.

(** [sample(frac=1)] returns, and returns the rows shuffled as the
    positions are. *)
Lemma sample_frac1_shuffle draws df :
  sample_frac1 draws df = Returns (shuffle (length df - 1) draws df).
Proof.
  unfold sample_frac1, take_rows, permutation.
  pose proof (mapM_lookup_seq [] df) as Hseq. cbn in Hseq.
  by rewrite (mapM_shuffle _ _ _ _ _ Hseq).
Qed.

Lemma sample_frac1_Permutation draws df :
  ∃ cards, sample_frac1 draws df = Returns cards ∧ cards ≡ₚ df.
Proof.
  exists (shuffle (length df - 1) draws df).
  split; [apply sample_frac1_shuffle|apply shuffle_Permutation].
Qed.

(** Every order of the rows is the result for some draws. *)
Lemma sample_frac1_reaches df cards :
  cards ≡ₚ df → ∃ draws, sample_frac1 draws df = Returns cards.
Proof.
  intros Hp. pose proof (Permutation_length Hp) as Hlen.
  destruct (shuffle_reaches (length df - 1) df cards) as [draws Hd].
  - done.
  - destruct df; [by right|]. left. cbn. lia.
  - intros k Hk.
    rewrite (lookup_ge_None_2 df k), (lookup_ge_None_2 cards k) by lia. done.
  - exists draws. by rewrite sample_frac1_shuffle, Hd.
Qed.

End start.

(** C6.  With an empty store the start step changes nothing in the session
    state and shows the warning.  With a store that is not empty it returns
    with cards that are the rows of the store in some order, each as often
    as the store has it, with the position at [0] and the translation
    hidden; the store itself stays.  The order is the one the draws of the
    generator produce, and every order of the rows is produced by some
    draws; how the draws are distributed is outside this statement. *)
Theorem start_session_cards (draws : list nat) (s : session_state) :
  (vocab_df s = [] → start_session draws s = Returns (s, [load_first]))
  ∧ (vocab_df s ≠ [] →
     ∃ cards,
       cards ≡ₚ vocab_df s
       ∧ start_session draws s
         = Returns ({| vocab_df := vocab_df s; flashcards := cards;
                       current_index := 0; show_translation := false |}, []))
  ∧ (vocab_df s ≠ [] →
     ∀ cards, cards ≡ₚ vocab_df s →
       ∃ numbers,
         start_session numbers s
         = Returns ({| vocab_df := vocab_df s; flashcards := cards;
                       current_index := 0; show_translation := false |}, []))
  ∧ start_block (Some start_button) draws s = start_session draws s.
Proof.
  unfold start_session. split; [|split; [|split]]; [| | |done].
  - by intros ->.
  - intros Hne. destruct (vocab_df s) as [|r df] eqn:E; [done|].
    destruct (sample_frac1_Permutation draws (r :: df)) as (cards & Hs & Hp).
    exists cards. split; [done|]. cbn [is_empty]. by rewrite Hs.
  - intros Hne cards Hp. destruct (vocab_df s) as [|r df] eqn:E; [done|].
    destruct (sample_frac1_reaches (r :: df) cards Hp) as [numbers Hs].
    exists numbers. cbn [is_empty]. by rewrite Hs.
Qed.

Lemma start_session_cards_witness :
  let A := (CStr (lit "cat"), CStr (lit "Katze")) in
  let B := (CStr (lit "dog"), CStr (lit "Hund")) in
  let C := (CStr (lit "bird"), CStr (lit "Vogel")) in
  let idle := {| vocab_df := []; flashcards := [A]; current_index := 0;
                 show_translation := true |} in
  let s := {| vocab_df := [A; B; C]; flashcards := []; current_index := 7;
              show_translation := true |} in
  (vocab_df idle = [] ∧ start_session [1; 0] idle = Returns (idle, [load_first]))
  ∧ (vocab_df s ≠ []
     ∧ ∃ cards, cards ≡ₚ [A; B; C]
                ∧ start_session [1; 0] s
                  = Returns ({| vocab_df := [A; B; C]; flashcards := cards;
                                current_index := 0;
                                show_translation := false |}, []))
  ∧ ([C; A; B] ≡ₚ vocab_df s
     ∧ ∃ numbers,
         start_session numbers s
         = Returns ({| vocab_df := [A; B; C]; flashcards := [C; A; B];
                       current_index := 0; show_translation := false |}, [])).
Proof.
  intros A B C idle s.
  assert (vocab_df s ≠ []) as Hne by discriminate.
  assert ([C; A; B] ≡ₚ vocab_df s) as Hp.
  { exact (Permutation_cons_append [A; B] C). }
  split; [|split].
  - split; [reflexivity|].
    exact (proj1 (start_session_cards [1; 0] idle) eq_refl).
  - split; [exact Hne|].
    exact (proj1 (proj2 (start_session_cards [1; 0] s)) Hne).
  - split; [exact Hp|].
    exact (proj1 (proj2 (proj2 (start_session_cards [] s))) Hne _ Hp).
Defined.

(** ** Clearing, saving and loading *)

Lemma overview_block_disk clicked d s :
  clicked ≠ Some save_button → (overview_block clicked d s).1.1 = d.
Proof.
  intros Hclick. unfold overview_block.
  destruct (negb (is_empty (vocab_df s))); [|done].
  rewrite bool_decide_eq_false_2 by done.
  by destruct (bool_decide (clicked = Some clear_button)).
Qed.

Lemma overview_block_clear d s :
  overview_block (Some clear_button) d s
  = if is_empty (vocab_df s) then (d, s, [nothing_loaded])
    else (d, clear_vocabularies s, [removed]).
Proof. unfold overview_block. by destruct (is_empty (vocab_df s)). Qed.

(** Only a run in which the save button was pressed writes the file. *)
Lemma script_disk i w :
  clicked i ≠ Some save_button → disk (after (script i w)) = disk w.
Proof.
  intros Hclick. unfold script.
  destruct (init_session_state (disk w) (session w)) as [s| |]; [|done..].
  destruct (upload_block (uploaded_files i) s) as [s1 m1].
  pose proof (overview_block_disk (clicked i) (disk w) s1 Hclick) as Hd.
  destruct (overview_block (clicked i) (disk w) s1) as [[d s2] m2].
  cbn in Hd. subst d.
  destruct (start_block (clicked i) (draws i) s2) as [[s3 m3]| |]; [|done..].
  by destruct (flashcard_block (clicked i) s3) as [[s4 m4]| |].
Qed.

(** C9.  Clearing leaves an empty store and does not write the file: the
    clear step itself, the overview block with the clear button pressed,
    and the whole run of the script with it pressed.  What is on disk stays
    through every run in which the save button is not pressed. *)
Theorem clear_keeps_file (d : file) (s : session_state) :
  vocab_df (clear_vocabularies s) = []
  ∧ (overview_block (Some clear_button) d s).1.1 = d
  ∧ vocab_df (overview_block (Some clear_button) d s).1.2 = []
  ∧ (∀ uploads numbers stored,
       disk (after (script {| uploaded_files := uploads;
                              clicked := Some clear_button;
                              draws := numbers |}
                           {| disk := d; session := stored |})) = d)
  ∧ (∀ i stored,
       clicked i ≠ Some save_button →
       disk (after (script i {| disk := d; session := stored |})) = d).
Proof.
  assert (Some clear_button ≠ Some save_button) as Hclear by discriminate.
  split; [done|]. split; [by apply overview_block_disk|]. split.
  - rewrite overview_block_clear. by destruct (vocab_df s) eqn:E.
  - split.
    + intros uploads numbers stored. by apply script_disk.
    + intros i stored Hclick. by apply (script_disk i).
Qed.

Lemma clear_keeps_file_witness :
  let A := (CStr (lit "cat"), CStr (lit "Katze")) in
  let d := Text (lit "word,translation") in
  let s := {| vocab_df := [A]; flashcards := [A]; current_index := 0;
              show_translation := false |} in
  let i := {| uploaded_files := []; clicked := Some next_button;
              draws := [] |} in
  clicked i ≠ Some save_button
  ∧ disk (after (script i {| disk := d; session := Some s |})) = d.
Proof.
  intros A d s i.
  assert (clicked i ≠ Some save_button) as Hclick by discriminate.
  split; [exact Hclick|].
  destruct (clear_keeps_file d s) as (_ & _ & _ & _ & Hruns).
  exact (Hruns i (Some s) Hclick).
Defined.

(** C2, as the code has it.  Without a file, loading returns the empty
    store.  With a file, loading is reading it: what the reader returns is
    returned, and what the reader raises is raised to the caller, so at the
    start of a browser session the run ends with that error, nothing
    shown and nothing stored. *)
Theorem load_absent_or_read (d : file) :
  (d = Absent → load_saved_vocabularies d = Returns empty_frame)
  ∧ (d ≠ Absent → load_saved_vocabularies d = pd_read_csv d)
  ∧ (∀ e i, d ≠ Absent → pd_read_csv d = Raises e →
       load_saved_vocabularies d = Raises e
       ∧ script i {| disk := d; session := None |}
         = {| after := {| disk := d; session := None |}; shown := [];
              stopped := Some (raised e) |}).
Proof.
  split; [by intros ->|]. split.
  - by destruct d.
  - intros e i Hd He.
    assert (load_saved_vocabularies d = Raises e) as Hload by by destruct d.
    split; [done|]. unfold script. cbn. by rewrite Hload.
Qed.

Lemma load_absent_or_read_witness :
  let i := {| uploaded_files := []; clicked := None; draws := [] |} in
  load_saved_vocabularies Absent = Returns empty_frame
  ∧ Text [] ≠ Absent
  ∧ pd_read_csv (Text []) = Raises EmptyDataError
  ∧ load_saved_vocabularies (Text []) = Raises EmptyDataError
  ∧ stopped (script i {| disk := Text []; session := None |})
    = Some (raised EmptyDataError).
Proof.
  intros i.
  assert (Text [] ≠ Absent) as Hd by discriminate.
  assert (pd_read_csv (Text []) = Raises EmptyDataError) as He by reflexivity.
  split; [exact (proj1 (load_absent_or_read Absent) eq_refl)|].
  split; [exact Hd|]. split; [exact He|].
  destruct (proj2 (proj2 (load_absent_or_read (Text []))) _ i Hd He)
    as [Hload Hrun].
  split; [exact Hload|]. by rewrite Hrun.
Defined.

(** C2, as the claim has it, fails: a file that is there but empty, one
    with a quoted field left open, and one that does not decode each make
    loading raise instead of returning the empty store. *)
Lemma load_raises_counterexample :
  load_saved_vocabularies (Text []) = Raises EmptyDataError
  ∧ load_saved_vocabularies (Text []) ≠ Returns empty_frame
  ∧ load_saved_vocabularies
      (Text (lit "word,translation" ++ [10%N] ++ [34%N] ++ lit "cat,Katze"))
    = Raises ParserError
  ∧ load_saved_vocabularies Undecodable = Raises UnicodeDecodeError.
Proof. repeat split; (done || by vm_compute). Qed.

(** C7 fails on the code.  The line [null - zero] is parsed into the pair
    of the strings [null] and [zero]; saved and loaded again, the word is
    the missing value and no longer the string.  A word that is a number
    comes back as an integer. *)
Lemma save_load_changes_words :
  let fresh := {| vocab_df := []; flashcards := []; current_index := 0;
                  show_translation := false |} in
  let store := vocab_df (upload_block [lit "null - zero"] fresh).1 in
  let digits := vocab_df (upload_block [lit "1 - eins"] fresh).1 in
  store = [(CStr (lit "null"), CStr (lit "zero"))]
  ∧ load_saved_vocabularies (save_vocabularies store)
    = Returns [(CNaN, CStr (lit "zero"))]
  ∧ load_saved_vocabularies (save_vocabularies store) ≠ Returns store
  ∧ digits = [(CStr (lit "1"), CStr (lit "eins"))]
  ∧ load_saved_vocabularies (save_vocabularies digits)
    = Returns [(CInt 1, CStr (lit "eins"))].
Proof. repeat split; (done || by vm_compute). Qed.

(** ** The position stays inside the cards *)

Section position.

Implicit Types (s : session_state) (w : world).

Lemma upload_block_session files s :
  flashcards (upload_block files s).1 = flashcards s
  ∧ current_index (upload_block files s).1 = current_index s.
Proof.
  unfold upload_block. destruct files as [|f files]; [done|].
  unfold merge_upload. by destruct (foldl _ _ _).
Qed.

Lemma upload_block_position files s :
  position_in_range s → position_in_range (upload_block files s).1.
Proof.
  unfold position_in_range.
  by destruct (upload_block_session files s) as [-> ->].
Qed.

Lemma overview_block_position click d s :
  position_in_range s → position_in_range (overview_block click d s).1.2.
Proof.
  intros Hs. unfold overview_block.
  destruct (negb (is_empty (vocab_df s))); [|done].
  destruct (bool_decide (click = Some save_button));
    destruct (bool_decide (click = Some clear_button)); done.
Qed.

Lemma start_block_position click numbers s s' m :
  position_in_range s →
  start_block click numbers s = Returns (s', m) →
  position_in_range s'.
Proof.
  intros Hs. unfold start_block.
  destruct (bool_decide (click = Some start_button)); [|by intros [= <- _]].
  unfold start_session. destruct (vocab_df s) as [|r df] eqn:E.
  - by intros [= <- _].
  - destruct (sample_frac1_Permutation numbers (r :: df)) as (cards & Hc & Hp).
    cbn [is_empty]. rewrite Hc. intros [= <- _].
    intros _. cbn. apply Permutation_length in Hp. rewrite Hp. cbn. lia.
Qed.

Lemma flashcard_block_position click s s' m :
  position_in_range s →
  flashcard_block click s = Returns (s', m) →
  position_in_range s'.
Proof.
  intros Hs. unfold flashcard_block.
  destruct (flashcards s) as [|c cards] eqn:E; [by intros [= <- _]|].
  destruct (getitem (c :: cards) (current_index s)) as [c0| |]; [|done..].
  cbn [bind].
  destruct (bool_decide (click = Some toggle_button)) eqn:Et;
    destruct (bool_decide (click = Some next_button)) eqn:En.
  - apply bool_decide_eq_true in Et, En. congruence.
  - intros [= <- _]. unfold position_in_range in *. cbn. by rewrite E in *.
  - rewrite next_card_active by (by rewrite E). intros [= <- _].
    intros _. cbn. apply Z.mod_pos_bound. rewrite E. cbn. lia.
  - by intros [= <- _].
Qed.

Lemma script_position i w s' :
  (∀ s, session w = Some s → position_in_range s) →
  session (after (script i w)) = Some s' →
  position_in_range s'.
Proof.
  intros Hw. unfold script.
  destruct (init_session_state (disk w) (session w)) as [s| |] eqn:Hinit;
    [|by apply Hw..].
  assert (position_in_range s) as Hs.
  { unfold init_session_state in Hinit. destruct (session w) as [s0|].
    - injection Hinit as <-. by apply Hw.
    - destruct (load_saved_vocabularies (disk w)); [|done..].
      injection Hinit as <-. by intros ?. }
  pose proof (upload_block_position (uploaded_files i) s Hs) as H1.
  destruct (upload_block (uploaded_files i) s) as [s1 m1]. cbn in H1.
  pose proof (overview_block_position (clicked i) (disk w) s1 H1) as H2.
  destruct (overview_block (clicked i) (disk w) s1) as [[d s2] m2].
  cbn in H2.
  destruct (start_block (clicked i) (draws i) s2) as [[s3 m3]| |] eqn:H3;
    [|by intros [= <-]..].
  apply start_block_position in H3; [|done].
  destruct (flashcard_block (clicked i) s3) as [[s4 m4]| |] eqn:H4;
    [|by intros [= <-]..].
  apply flashcard_block_position in H4; [|done]. by intros [= <-].
Qed.

(** In every world a browser session can reach, the position points at a
    card whenever there are cards. *)
Lemma reachable_position w s :
  reachable w → session w = Some s → position_in_range s.
Proof.
  intros Hw. revert s. induction Hw as [d|i w _ IH]; intros s; [done|].
  by apply script_position.
Qed.

End position.

(** C5.  In an active session the next-card step puts the position at
    (position + 1) modulo the number of cards, so from the last card to the
    first, and hides the translation whatever it was before; with the
    position inside the cards, as many steps as there are cards bring the
    position back to where it was. *)
Theorem next_card_wraps (s : session_state) :
  let N := Z.of_nat (length (flashcards s)) in
  flashcards s ≠ [] →
  (∃ s', next_card s = Returns s'
         ∧ current_index s' = ((current_index s + 1) `mod` N)%Z
         ∧ show_translation s' = false)
  ∧ (current_index s = (N - 1)%Z →
     ∃ s', next_card s = Returns s' ∧ current_index s' = 0%Z)
  ∧ ((0 ≤ current_index s < N)%Z →
     ∃ s', next_cards (length (flashcards s)) s = Returns s'
           ∧ current_index s' = current_index s)
  ∧ (∀ w, reachable w → session w = Some s →
       ∃ s', next_cards (length (flashcards s)) s = Returns s'
             ∧ current_index s' = current_index s).
Proof.
  intros N Hactive. pose proof (length_active s Hactive) as Hlen.
  assert ((0 ≤ current_index s < N)%Z →
          ∃ s', next_cards (length (flashcards s)) s = Returns s'
                ∧ current_index s' = current_index s) as Hround.
  { intros Hrange.
    destruct (next_cards_active (length (flashcards s)) s Hactive)
      as (s' & Hrun & _ & _ & Hidx & Hpos).
    exists s'. split; [done|]. fold N in Hidx, Hpos.
    destruct Hpos as [Hin _]; [lia|].
    rewrite <- (Z.mod_small (current_index s') N) by done.
    rewrite Hidx. replace (current_index s + N)%Z
      with (current_index s + 1 * N)%Z by lia.
    rewrite Z.mod_add by lia. by apply Z.mod_small. }
  rewrite (next_card_active s Hactive). fold N. split; [|split; [|split]].
  - eexists. by split.
  - intros Hlast. eexists. split; [done|]. cbn. rewrite Hlast.
    replace (N - 1 + 1)%Z with (1 * N)%Z by lia. by apply Z.mod_mul, Z.neq_sym, Z.lt_neq.
  - done.
  - intros w Hw Hs. apply Hround.
    by apply (reachable_position w s Hw Hs).
Qed.

Lemma next_card_wraps_witness :
  let dog := (CStr (lit "dog"), CStr (lit "Hund")) in
  let cat := (CStr (lit "cat"), CStr (lit "Katze")) in
  let s := {| vocab_df := [dog; cat]; flashcards := [cat; dog];
              current_index := 1; show_translation := true |} in
  let started := {| vocab_df := [dog; cat]; flashcards := [cat; dog];
                    current_index := 0; show_translation := false |} in
  let text := lit "dog - Hund" ++ [10%N] ++ lit "cat: Katze" in
  let w :=
    after (script {| uploaded_files := [text];
                     clicked := Some start_button; draws := [0] |}
                  {| disk := Absent; session := None |}) in
  (flashcards s ≠ []
   ∧ (0 ≤ current_index s < 2)%Z
   ∧ (∃ s', next_card s = Returns s' ∧ current_index s' = 0%Z)
   ∧ (∃ s', next_cards 2 s = Returns s' ∧ current_index s' = 1%Z))
  ∧ (flashcards started ≠ []
     ∧ reachable w
     ∧ session w = Some started
     ∧ ∃ s', next_cards 2 started = Returns s' ∧ current_index s' = 0%Z).
Proof.
  intros dog cat s started text w. split.
  - assert (flashcards s ≠ []) as Hactive by discriminate.
    assert (0 ≤ current_index s < 2)%Z as Hrange by (cbn; lia).
    split; [exact Hactive|]. split; [exact Hrange|].
    destruct (next_card_wraps s Hactive) as (_ & Hlast & Hround & _).
    split; [exact (Hlast eq_refl)|exact (Hround Hrange)].
  - assert (flashcards started ≠ []) as Hactive by discriminate.
    assert (reachable w) as Hw by (apply reachable_run, reachable_begin).
    assert (session w = Some started) as Hs by reflexivity.
    split; [exact Hactive|]. split; [exact Hw|]. split; [exact Hs|].
    destruct (next_card_wraps started Hactive) as (_ & _ & _ & Hreach).
    exact (Hreach w Hw Hs).
Defined.

(** ** The examples of the specification *)

Example parse_cat :
  parse_vocabulary (lit "cat - Katze") = [(lit "cat", lit "Katze")].
Proof. reflexivity. Qed.

Example parse_first_equals :
  parse_vocabulary (lit "a=b=c") = [(lit "a", lit "b=c")].
Proof. reflexivity. Qed.

Example parse_nosep : parse_vocabulary (lit "nosep here") = [].
Proof. reflexivity. Qed.

Example parse_missing_term : parse_vocabulary (lit "  - missing term") = [].
Proof. reflexivity. Qed.

(** The dash of a line that begins with it is no separator after trimming,
    so a later separator of the list decides. *)
Example parse_leading_dash :
  parse_vocabulary (lit "  - a:b") = [(lit "- a", lit "b")].
Proof. reflexivity. Qed.

(** An empty part ends the line although a later separator would cut it. *)
Example parse_empty_term : parse_vocabulary (lit ":a=b") = [].
Proof. reflexivity. Qed.

Example parse_three_lines :
  parse_vocabulary
    (lit "dog - Hund" ++ [10%N] ++ lit "cat: Katze" ++ [10%N]
     ++ lit "bad line" ++ [10%N])
  = [(lit "dog", lit "Hund"); (lit "cat", lit "Katze")].
Proof. reflexivity. Qed.

(** Upload, save, start and two steps through the cards. *)
Example upload_save_start_next :
  let text := lit "dog - Hund" ++ [10%N] ++ lit "cat: Katze" ++ [10%N] in
  let dog := (CStr (lit "dog"), CStr (lit "Hund")) in
  let cat := (CStr (lit "cat"), CStr (lit "Katze")) in
  let w0 := {| disk := Absent; session := None |} in
  let r1 := script {| uploaded_files := [text]; clicked := Some save_button;
                      draws := [] |} w0 in
  let r2 := script {| uploaded_files := []; clicked := Some start_button;
                      draws := [0] |} (after r1) in
  let r3 := script {| uploaded_files := []; clicked := Some next_button;
                      draws := [] |} (after r2) in
  let r4 := script {| uploaded_files := []; clicked := Some next_button;
                      draws := [] |} (after r3) in
  shown r1 = [recognised 2; saved]
  ∧ load_saved_vocabularies (disk (after r1)) = Returns [dog; cat]
  ∧ session (after r2)
    = Some {| vocab_df := [dog; cat]; flashcards := [cat; dog];
              current_index := 0; show_translation := false |}
  ∧ (current_index <$> session (after r3)) = Some 1%Z
  ∧ (current_index <$> session (after r4)) = Some 0%Z
  ∧ shown r4 = [card 2 2 (CStr (lit "dog")) None].
Proof. repeat split; by vm_compute. Qed.

(** A word with a comma and a translation with a quotation mark are quoted
    by the writer and come back as they were. *)
Example save_load_quoted :
  let store := [(CStr (lit "cat, the"),
                 CStr (lit "die " ++ [34%N] ++ lit "Katze" ++ [34%N]))] in
  save_vocabularies store
  = Text (lit "word,translation" ++ [10%N]
          ++ [34%N] ++ lit "cat, the" ++ [34%N] ++ lit ","
          ++ [34%N] ++ lit "die " ++ [34%N; 34%N] ++ lit "Katze"
          ++ [34%N; 34%N; 34%N] ++ [10%N])
  ∧ load_saved_vocabularies (save_vocabularies store) = Returns store.
Proof. split; by vm_compute. Qed.

(** The empty store is saved as the header line and loaded as the empty
    store. *)
Example save_load_empty :
  save_vocabularies [] = Text (lit "word,translation" ++ [10%N])
  ∧ load_saved_vocabularies (save_vocabularies []) = Returns [].
Proof. split; by vm_compute. Qed.

(** * Further properties *)

(** ** Trimming *)

Section trimming.

Implicit Types (s l m ws : str) (c : char).

Lemma lstrip_spaces ws m : forallb isspace ws = true → lstrip (ws ++ m) = lstrip m.
Proof.
  induction ws as [|c ws IH]; [done|]. cbn.
  intros [Hc Hws]%andb_prop. rewrite Hc. by apply IH.
Qed.

Lemma lstrip_app l m : lstrip l ≠ [] → lstrip (l ++ m) = lstrip l ++ m.
Proof.
  induction l as [|c l IH]; [done|]. cbn.
  destruct (isspace c); [apply IH|done].
Qed.

Lemma lstrip_app_nil l m : lstrip l = [] → lstrip (l ++ m) = lstrip m.
Proof.
  induction l as [|c l IH]; [done|]. cbn.
  destruct (isspace c); [apply IH|done].
Qed.

Lemma lstrip_head s :
  lstrip s = [] ∨ ∃ c s', lstrip s = c :: s' ∧ isspace c = false.
Proof.
  induction s as [|c s IH]; [by left|]. cbn.
  destruct (isspace c) eqn:E; [done|]. right. by exists c, s.
Qed.

Lemma lstrip_idemp s : lstrip (lstrip s) = lstrip s.
Proof.
  destruct (lstrip_head s) as [->|(c & s' & -> & Hc)]; [done|].
  cbn. by rewrite Hc.
Qed.

Lemma rstrip_idemp s : rstrip (rstrip s) = rstrip s.
Proof. unfold rstrip. by rewrite rev_involutive, lstrip_idemp. Qed.

(** Trimming the right end leaves a trimmed left end alone. *)
Lemma lstrip_rstrip s : lstrip s = s → lstrip (rstrip s) = rstrip s.
Proof.
  intros Hs. destruct (lstrip_head s) as [H|(c & s' & H & Hc)];
    rewrite Hs in H; subst s; [done|].
  unfold rstrip. cbn [rev].
  destruct (lstrip_head (rev s' ++ [c])) as [H|(d & v & H & Hd)].
  - destruct (lstrip_head (rev s')) as [H'|(d & v & H' & _)].
    + rewrite lstrip_app_nil in H by done. cbn in H. by rewrite Hc in H.
    + rewrite lstrip_app in H by (by rewrite H'). by rewrite H' in H.
  - assert (∃ u, lstrip (rev s' ++ [c]) = u ++ [c]) as [u Hu].
    { destruct (lstrip_head (rev s')) as [H'|(d' & v' & H' & _)].
      - exists []. rewrite lstrip_app_nil by done. cbn. by rewrite Hc.
      - exists (lstrip (rev s')). apply lstrip_app. by rewrite H'. }
    rewrite Hu, rev_app_distr. cbn. by rewrite Hc.
Qed.

Lemma strip_idemp s : strip (strip s) = strip s.
Proof.
  unfold strip. rewrite (lstrip_rstrip (lstrip s)) by apply lstrip_idemp.
  apply rstrip_idemp.
Qed.

Lemma rstrip_spaces m ws : forallb isspace ws = true → rstrip (m ++ ws) = rstrip m.
Proof.
  intros Hws. unfold rstrip. rewrite rev_app_distr, lstrip_spaces; [done|].
  rewrite forallb_forall in *. intros c Hc. apply Hws. by apply in_rev.
Qed.

Lemma strip_margin ws1 s ws2 :
  forallb isspace ws1 = true → forallb isspace ws2 = true →
  strip (ws1 ++ s ++ ws2) = strip s.
Proof.
  intros H1 H2. unfold strip. rewrite lstrip_spaces by done.
  destruct (lstrip_head s) as [H|(c & s' & H & _)].
  - rewrite lstrip_app_nil, H by done.
    replace (lstrip ws2) with (@nil char); [done|].
    symmetry. rewrite <- (app_nil_r ws2). by rewrite lstrip_spaces.
  - rewrite lstrip_app by (by rewrite H). by apply rstrip_spaces.
Qed.

(** The ends of a trimmed string that is not empty. *)
Lemma trimmed_ends s :
  trimmed s → s ≠ [] →
  (∃ c s', s = c :: s' ∧ isspace c = false)
  ∧ (∃ s' c, s = s' ++ [c] ∧ isspace c = false).
Proof.
  unfold trimmed, strip. intros Hs Hne. split.
  - assert (lstrip s = s) as Hl.
    { rewrite <- Hs at 1. rewrite lstrip_rstrip by apply lstrip_idemp.
      done. }
    destruct (lstrip_head s) as [H|(c & s' & H & Hc)]; rewrite Hl in H;
      [done|]. by exists c, s'.
  - unfold rstrip in Hs.
    destruct (lstrip_head (rev (lstrip s))) as [H|(c & v & H & Hc)];
      rewrite H in Hs; [by subst s|].
    exists (rev v), c. by rewrite <- Hs.
Qed.

Lemma trimmed_app s1 m s2 :
  trimmed s1 → s1 ≠ [] → trimmed s2 → s2 ≠ [] → trimmed (s1 ++ m ++ s2).
Proof.
  intros H1 Hn1 H2 Hn2.
  destruct (trimmed_ends s1 H1 Hn1) as [(c & s1' & -> & Hc) _].
  destruct (trimmed_ends s2 H2 Hn2) as [_ (s2' & d & -> & Hd)].
  unfold trimmed, strip. cbn [app lstrip]. rewrite Hc.
  unfold rstrip. rewrite !app_comm_cons, !app_assoc, rev_app_distr.
  cbn [rev app lstrip]. rewrite Hd. cbn [rev].
  by rewrite rev_app_distr, rev_involutive.
Qed.

End trimming.

(** ** More on the parser *)

Section parser_more.

Implicit Types (line sep w t a b cur : str) (seps : list str).

Lemma cut_result_Some left right w t :
  cut_result left right = Some (w, t) →
  w = strip left ∧ t = strip right ∧ w ≠ [] ∧ t ≠ [].
Proof.
  unfold cut_result.
  destruct (strip left) as [|c l] eqn:El; [done|].
  destruct (strip right) as [|d r] eqn:Er; [done|].
  by intros [= <- <-].
Qed.

Lemma scan_separators_Some seps line w t :
  scan_separators seps line = Some (w, t) →
  ∃ left right, w = strip left ∧ t = strip right ∧ w ≠ [] ∧ t ≠ [].
Proof.
  induction seps as [|sep seps IH]; [done|]. cbn.
  destruct (contains sep line); [|done].
  destruct (split1 sep line) as [|left [|right [|? ?]]]; try done.
  intros H. exists left, right. by apply cut_result_Some.
Qed.

Lemma parse_line_Some line w t :
  parse_line line = Some (w, t) →
  w ≠ [] ∧ t ≠ [] ∧ trimmed w ∧ trimmed t.
Proof.
  unfold parse_line. destruct (truthy (strip line)); [|done].
  intros (left & right & -> & -> & Hw & Ht)%scan_separators_Some.
  repeat split; [done..| |]; apply strip_idemp.
Qed.

Lemma length_omap_le {A B} (f : A → option B) (l : list A) :
  length (omap f l) ≤ length l.
Proof.
  induction l as [|x l IH]; [done|]. cbn. destruct (f x); cbn; lia.
Qed.

Lemma splitlines_from_cons cur c s :
  splitlines_from cur (c :: s)
  = if (c =? 13)%N then
      rev cur :: splitlines_from []
                   (match s with
                    | d :: s' => if (d =? 10)%N then s' else s
                    | [] => []
                    end)
    else if is_linebreak c then rev cur :: splitlines_from [] s
    else splitlines_from (c :: cur) s.
Proof.
  cbn [splitlines_from]. destruct (c =? 13)%N; [|done].
  destruct s as [|d s]; [done|].
  destruct d as [|p]; [done|].
  do 4 (destruct p as [p|p|]; try done).
Qed.

Lemma omap_parse_line_feed n b :
  ∀ a cur, length a ≤ n →
    omap parse_line (splitlines_from cur (a ++ 10%N :: b))
    = omap parse_line (splitlines_from cur a)
      ++ omap parse_line (splitlines b).
Proof.
  assert (∀ cur, omap parse_line (splitlines_from cur (10%N :: b))
                 = omap parse_line (splitlines_from cur [])
                   ++ omap parse_line (splitlines b)) as Hbase.
  { intros cur. rewrite splitlines_from_cons.
    change (10 =? 13)%N with false. change (is_linebreak 10%N) with true.
    cbv iota. destruct cur as [|c cur]; [done|].
    cbn [splitlines_from omap list_omap].
    by destruct (parse_line (rev (c :: cur))). }
  induction n as [|n IH]; intros a cur Hlen.
  - destruct a; [apply Hbase|cbn in Hlen; lia].
  - destruct a as [|c a]; [apply Hbase|]. cbn in Hlen.
    cbn [app]. rewrite !splitlines_from_cons.
    destruct (c =? 13)%N.
    + cbn [omap list_omap]. destruct a as [|d a].
      * cbn [app]. change (10 =? 10)%N with true. cbv iota.
        cbn [splitlines_from omap list_omap].
        by destruct (parse_line (rev cur)).
      * cbn [app]. cbn in Hlen. destruct (d =? 10)%N.
        -- rewrite IH by lia. by destruct (parse_line (rev cur)).
        -- rewrite (IH (d :: a)) by (cbn; lia).
           by destruct (parse_line (rev cur)).
    + destruct (is_linebreak c).
      * cbn [omap list_omap]. rewrite IH by lia.
        by destruct (parse_line (rev cur)).
      * apply IH. lia.
Qed.

End parser_more.

(** X1.  Every pair the parser returns has a word and a translation that
    are not empty and have no whitespace at either end; each pair is what
    [parse_line] makes of one of the lines of the text, and there are at
    most as many pairs as lines. *)
Theorem parse_pairs_trimmed (text : str) :
  length (parse_vocabulary text) ≤ length (splitlines text)
  ∧ ∀ p, p ∈ parse_vocabulary text →
      p.1 ≠ [] ∧ p.2 ≠ [] ∧ trimmed p.1 ∧ trimmed p.2
      ∧ ∃ line, line ∈ splitlines text ∧ parse_line line = Some p.
Proof.
  rewrite parse_vocabulary_lines. split; [apply length_omap_le|].
  intros [w t] (line & Hline & Hp)%list_elem_of_omap.
  destruct (parse_line_Some _ _ _ Hp) as (? & ? & ? & ?).
  repeat split; [done..|]. by exists line.
Qed.

Lemma parse_pairs_trimmed_witness :
  let text := lit "  dog  -  Hund  " ++ [10%N] ++ lit "noise" in
  let p := (lit "dog", lit "Hund") in
  p ∈ parse_vocabulary text
  ∧ p.1 ≠ [] ∧ p.2 ≠ [] ∧ trimmed p.1 ∧ trimmed p.2
  ∧ ∃ line, line ∈ splitlines text ∧ parse_line line = Some p.
Proof.
  intros text p.
  assert (p ∈ parse_vocabulary text) as Hin by left.
  split; [exact Hin|].
  exact (proj2 (parse_pairs_trimmed text) p Hin).
Defined.

Lemma parse_vocabulary_feed (a b : str) :
  parse_vocabulary (a ++ 10%N :: b) = parse_vocabulary a ++ parse_vocabulary b.
Proof.
  rewrite !parse_vocabulary_lines. unfold splitlines at 1 2.
  by apply (omap_parse_line_feed (length a)).
Qed.

(** X2.  A line feed separates what is parsed: the pairs of a text, a line
    feed and a second text are the pairs of the first text followed by the
    pairs of the second, whatever the two texts are. *)
Theorem parse_vocabulary_line_feed (a b : str) :
  parse_vocabulary (a ++ [10%N] ++ b)
  = parse_vocabulary a ++ parse_vocabulary b.
Proof. apply parse_vocabulary_feed. Qed.

(** X3.  Whitespace before and after a line does not change what the line
    yields. *)
Theorem parse_line_ignores_margin (ws1 line ws2 : str) :
  forallb isspace ws1 = true → forallb isspace ws2 = true →
  parse_line (ws1 ++ line ++ ws2) = parse_line line.
Proof.
  intros H1 H2. unfold parse_line. by rewrite strip_margin.
Qed.

Lemma parse_line_ignores_margin_witness :
  let ws1 := [32%N; 9%N; 160%N] in
  let ws2 := [12288%N; 32%N] in
  forallb isspace ws1 = true ∧ forallb isspace ws2 = true
  ∧ parse_line (ws1 ++ lit "cat: Katze" ++ ws2)
    = parse_line (lit "cat: Katze").
Proof.
  intros ws1 ws2.
  assert (forallb isspace ws1 = true) as H1 by reflexivity.
  assert (forallb isspace ws2 = true) as H2 by reflexivity.
  split; [exact H1|]. split; [exact H2|].
  exact (parse_line_ignores_margin ws1 (lit "cat: Katze") ws2 H1 H2).
Defined.

(** An occurrence of [sep] that begins inside [w] lies in [w] followed by
    all but the last character of [sep]. *)
Lemma occurs_before (sep w t left right : str) :
  sep ≠ [] →
  left ++ sep ++ right = w ++ sep ++ t →
  length left < length w →
  occurs sep (w ++ removelast sep).
Proof.
  intros Hsep Heq Hlen.
  assert (left = take (length left) w) as Hleft.
  { transitivity (take (length left) (left ++ sep ++ right));
      [by rewrite take_app_length|].
    rewrite Heq. apply take_app_le. lia. }
  set (x := drop (length left) w).
  assert (w = left ++ x) as Hw.
  { unfold x. rewrite Hleft at 1. by rewrite take_drop. }
  assert (0 < length x) as Hx.
  { apply (f_equal length) in Hw. rewrite length_app in Hw. lia. }
  rewrite Hw, <- app_assoc in Heq. apply app_inv_head in Heq.
  rewrite (app_removelast_last (A:=char) 0%N Hsep) in Heq at 2.
  assert (length sep = S (length (removelast sep))) as Hr.
  { rewrite (app_removelast_last (A:=char) 0%N Hsep) at 1.
    rewrite length_app. cbn. lia. }
  assert (sep = take (length sep) (x ++ removelast sep)) as Htake.
  { transitivity (take (length sep) (sep ++ right));
      [by rewrite take_app_length|].
    rewrite Heq, !app_assoc.
    rewrite take_app_le by (rewrite !length_app; lia).
    apply take_app_le. rewrite length_app. lia. }
  exists left, (drop (length sep) (x ++ removelast sep)).
  rewrite Hw, <- app_assoc. f_equal.
  transitivity (take (length sep) (x ++ removelast sep)
                ++ drop (length sep) (x ++ removelast sep));
    [by rewrite take_drop|by rewrite <- Htake].
Qed.

(** X4.  A line written as word, separator, translation is parsed back into
    that word and that translation when both are trimmed and not empty, no
    separator of higher priority occurs in the line, and the separator
    does not occur in the word followed by the separator without its last
    character. *)
Theorem parse_line_of_pair (i : nat) (sep w t : str) :
  SUPPORTED_SEPARATORS !! i = Some sep →
  trimmed w → w ≠ [] → trimmed t → t ≠ [] →
  (∀ j sep', j < i → SUPPORTED_SEPARATORS !! j = Some sep' →
             ¬ occurs sep' (w ++ sep ++ t)) →
  ¬ occurs sep (w ++ removelast sep) →
  parse_line (w ++ sep ++ t) = Some (w, t).
Proof.
  intros Hi Hw Hwne Ht Htne Hbefore Hfirst.
  assert (sep ≠ []) as Hsep.
  { apply separators_not_empty. by eapply list_elem_of_lookup_2. }
  pose proof (trimmed_app w sep t Hw Hwne Ht Htne) as Hline.
  unfold parse_line. rewrite Hline.
  assert (truthy (w ++ sep ++ t) = true) as ->.
  { destruct w; [done|]. done. }
  assert (occurs sep (w ++ sep ++ t)) as Hocc by (by exists w, t).
  destruct (scan_separators_first _ _ _ _ Hi Hocc Hbefore)
    as (left & right & Hcut & Hleast & ->).
  pose proof (Hleast w t eq_refl) as Hle.
  assert (length left = length w) as Hlen.
  { destruct (decide (length left = length w)) as [|Hne]; [done|].
    exfalso. apply Hfirst.
    apply (occurs_before sep w t left right); [done..|lia]. }
  assert (left = w) as ->.
  { transitivity (take (length left) (left ++ sep ++ right));
      [by rewrite take_app_length|].
    rewrite <- Hcut, Hlen. apply take_app_length. }
  apply app_inv_head in Hcut. apply app_inv_head in Hcut. subst right.
  unfold cut_result. rewrite Hw, Ht.
  destruct w; [done|]. by destruct t.
Qed.

Lemma parse_line_of_pair_witness :
  let w := lit "well-known" in
  let t := lit "bekannt: sehr" in
  let sep := [32%N; 45%N; 32%N] in
  SUPPORTED_SEPARATORS !! 0 = Some sep
  ∧ trimmed w ∧ w ≠ [] ∧ trimmed t ∧ t ≠ []
  ∧ ¬ occurs sep (w ++ removelast sep)
  ∧ parse_line (w ++ sep ++ t) = Some (w, t).
Proof.
  intros w t sep.
  assert (trimmed w) as Hw by reflexivity.
  assert (trimmed t) as Ht by reflexivity.
  assert (w ≠ []) as Hwne by discriminate.
  assert (t ≠ []) as Htne by discriminate.
  assert (¬ occurs sep (w ++ removelast sep)) as Hfirst.
  { apply not_contains_occurs. reflexivity. }
  assert (∀ j sep', j < 0 → SUPPORTED_SEPARATORS !! j = Some sep' →
                    ¬ occurs sep' (w ++ sep ++ t)) as Hbefore.
  { intros j sep' Hj. lia. }
  split; [reflexivity|]. split; [exact Hw|]. split; [exact Hwne|].
  split; [exact Ht|]. split; [exact Htne|]. split; [exact Hfirst|].
  exact (parse_line_of_pair 0 sep w t eq_refl Hw Hwne Ht Htne Hbefore Hfirst).
Defined.

Lemma elem_of_collected {A B} (f : A → list B) (xs : list A) acc y :
  y ∈ foldl (λ all x, all ++ f x) acc xs
  ↔ y ∈ acc ∨ ∃ x, x ∈ xs ∧ y ∈ f x.
Proof.
  revert acc. induction xs as [|x xs IH]; intros acc; cbn.
  - split; [by left|]. intros [?|(x & Hx & _)]; [done|].
    by apply elem_of_nil in Hx.
  - rewrite IH, elem_of_app. split.
    + intros [[?|?]|(x' & ? & ?)]; [by left| |].
      * right. exists x. split; [left|done].
      * right. exists x'. split; [by right|done].
    + intros [?|(x' & [->|?]%elem_of_cons & ?)].
      * by left; left.
      * by left; right.
      * right. by exists x'.
Qed.

(** ** Text extraction *)

Section extraction.

Implicit Types (text t : str) (pages : list page).

Lemma parse_closed_text text t :
  closed_text text →
  parse_vocabulary (text ++ t ++ [10%N])
  = parse_vocabulary text ++ parse_vocabulary t.
Proof.
  assert (∀ u, parse_vocabulary (u ++ [10%N]) = parse_vocabulary u) as Hend.
  { intros u. rewrite parse_vocabulary_feed. apply app_nil_r. }
  intros [->|[u ->]].
  - cbn [app]. apply Hend.
  - rewrite <- app_assoc. cbn [app].
    by rewrite parse_vocabulary_feed, !Hend.
Qed.

Lemma extract_pages_parse pages text :
  closed_text text →
  parse_vocabulary (extract_pages text pages).1
  = parse_vocabulary text
    ++ mjoin (parse_vocabulary <$> texts_before_failure pages).
Proof.
  revert text. induction pages as [|[[t|]|] pages IH]; intros text Hc; cbn.
  - by rewrite app_nil_r.
  - destruct t as [|c t]; cbn [truthy].
    + by rewrite IH.
    + rewrite IH.
      * by rewrite parse_closed_text, <- app_assoc.
      * right. exists (text ++ c :: t). by rewrite <- app_assoc.
  - by apply IH.
  - by rewrite app_nil_r.
Qed.

Lemma extract_pages_failed pages text :
  (extract_pages text pages).2 = true ↔ page_fails ∈ pages.
Proof.
  revert text. induction pages as [|[[t|]|] pages IH]; intros text; cbn.
  - rewrite elem_of_nil. by split.
  - rewrite elem_of_cons.
    destruct (truthy t); rewrite IH; split; try tauto;
      intros [?|?]; done.
  - rewrite elem_of_cons, IH. split; [tauto|]. intros [?|?]; done.
  - rewrite elem_of_cons. split; [by left|done].
Qed.

End extraction.

(** X5.  What is parsed from the text of a file is what is parsed from each
    of its pages, page after page, up to the first page whose extraction
    fails: pages without text add nothing, no pair runs over the end of a
    page, and the pairs of the pages before a failure are kept.  An error
    is shown exactly when a page fails.  So the pairs collected from the
    uploaded files, which the upload block merges, are the pairs of such
    pages of the files that can be opened. *)
Theorem parse_extracted_pages (pages : list page) :
  parse_vocabulary (extract_text_from_pdf (readable pages)).1
  = mjoin (parse_vocabulary <$> texts_before_failure pages)
  ∧ ((extract_text_from_pdf (readable pages)).2 = true
     ↔ page_fails ∈ pages)
  ∧ (∀ files p,
       p ∈ collect_vocabulary files
       ↔ ∃ pages' t, readable pages' ∈ files
                     ∧ t ∈ texts_before_failure pages'
                     ∧ p ∈ parse_vocabulary t)
  ∧ (∀ file files s,
       upload_block ((λ f, (extract_text_from_pdf f).1) <$> file :: files) s
       = merge_upload (collect_vocabulary (file :: files)) s).
Proof.
  assert (∀ pages', parse_vocabulary (extract_text_from_pdf (readable pages')).1
          = mjoin (parse_vocabulary <$> texts_before_failure pages')) as Hp.
  { intros pages'. cbn [extract_text_from_pdf].
    by rewrite extract_pages_parse by (by left). }
  split; [apply Hp|]. split; [apply extract_pages_failed|].
  split; [|intros file files s; unfold collect_vocabulary;
           by rewrite <- (foldl_fmap
             (λ all_vocab text, all_vocab ++ parse_vocabulary text))].
  intros files p. unfold collect_vocabulary.
  rewrite (elem_of_collected
             (λ file, parse_vocabulary (extract_text_from_pdf file).1)).
  rewrite elem_of_nil. split.
  - intros [[]|([|pages'] & Hin & Hfile)].
    + cbn in Hfile. by apply elem_of_nil in Hfile.
    + rewrite Hp in Hfile.
      apply list_elem_of_join in Hfile as (ps & Hps & Hl).
      apply list_elem_of_fmap in Hl as (t & -> & Ht).
      by exists pages', t.
  - intros (pages' & t & Hin & Ht & Hpt). right.
    exists (readable pages'). split; [done|]. rewrite Hp.
    apply list_elem_of_join. exists (parse_vocabulary t).
    split; [done|]. apply list_elem_of_fmap. by exists t.
Qed.

(** ** More on merging *)

Section merging_more.

Implicit Types (r : row) (store a b new : list row).

Lemma merge_merge store a b : merge (merge store a) b = merge store (a ++ b).
Proof.
  unfold merge, concat_frames.
  rewrite (drop_duplicates_app (drop_duplicates (store ++ a)) b).
  rewrite (drop_duplicates_NoDup (drop_duplicates (store ++ a)))
    by apply NoDup_drop_duplicates.
  rewrite app_assoc, (drop_duplicates_app (store ++ a) b). f_equal.
  apply list_filter_iff. intros r. by rewrite elem_of_drop_duplicates.
Qed.

Lemma merge_absorbs store new :
  NoDup store → (∀ r, r ∈ new → r ∈ store) → merge store new = store.
Proof.
  intros Hs Hnew. unfold merge, concat_frames.
  rewrite drop_duplicates_app, drop_duplicates_NoDup by done.
  rewrite filter_none; [apply app_nil_r|].
  intros r Hr Hnot. apply Hnot, Hnew. by apply elem_of_drop_duplicates.
Qed.

Lemma merge_twice store new : merge (merge store new) new = merge store new.
Proof.
  apply merge_absorbs; [apply NoDup_drop_duplicates|].
  intros r Hr. apply elem_of_drop_duplicates, elem_of_app. by right.
Qed.


End merging_more.

(** X6.  Merging in two steps is merging at once: merging [a] and then [b]
    gives the store that merging [a] followed by [b] gives, for the frames
    and for the upload block run on the parsed pairs. *)
Theorem merge_in_steps (store a b : DataFrame) :
  merge (merge store a) b = merge store (a ++ b)
  ∧ ∀ s pa pb,
      vocab_df (merge_upload pb (merge_upload pa s).1).1
      = vocab_df (merge_upload (pa ++ pb) s).1.
Proof.
  split; [apply merge_merge|].
  intros s [|p pa] [|q pb]; cbn [merge_upload app fst vocab_df].
  - done.
  - done.
  - by rewrite app_nil_r.
  - rewrite merge_merge. unfold frame_of_pairs.
    by rewrite <- fmap_app.
Qed.

(** X7.  For a store without duplicates, a merge leaves the store as it is
    exactly when every new row is already in it, and in general the store
    grows by the number of distinct new rows that it did not have. *)
Theorem merge_nothing_new (store new : DataFrame) :
  NoDup store →
  (merge store new = store ↔ ∀ r, r ∈ new → r ∈ store)
  ∧ length (merge store new)
    = length store
      + length (filter (λ r, r ∉ store) (drop_duplicates new)).
Proof.
  intros Hs. split.
  - split; [|by apply merge_absorbs].
    intros Heq r Hr. rewrite <- Heq. unfold merge, concat_frames.
    apply elem_of_drop_duplicates, elem_of_app. by right.
  - unfold merge, concat_frames.
    by rewrite drop_duplicates_app, drop_duplicates_NoDup, length_app.
Qed.

Lemma merge_nothing_new_witness :
  let A := (CStr (lit "cat"), CStr (lit "Katze")) in
  let B := (CStr (lit "dog"), CStr (lit "Hund")) in
  let C := (CStr (lit "bird"), CStr (lit "Vogel")) in
  NoDup [A; B]
  ∧ (merge [A; B] [B; A; B] = [A; B] ↔ ∀ r, r ∈ [B; A; B] → r ∈ [A; B])
  ∧ length (merge [A; B] [C; A; C]) = 3.
Proof.
  intros A B C.
  assert (NoDup [A; B]) as Hs.
  { apply NoDup_cons. split; [|apply NoDup_singleton].
    intros Hin. apply list_elem_of_singleton in Hin. discriminate. }
  split; [exact Hs|].
  split; [exact (proj1 (merge_nothing_new [A; B] [B; A; B] Hs))|].
  rewrite (proj2 (merge_nothing_new [A; B] [C; A; C] Hs)). reflexivity.
Defined.

(** X8.  The upload block never takes a row out of the store and leaves the
    cards, the position and the reveal flag as they are.  Every pair parsed
    from any of the texts is in the store afterwards, and every row of the
    store afterwards was in the store before or is such a pair. *)
Theorem upload_block_grows (files : list str) (s : session_state) :
  let s' := (upload_block files s).1 in
  flashcards s' = flashcards s
  ∧ current_index s' = current_index s
  ∧ show_translation s' = show_translation s
  ∧ (∀ r, r ∈ vocab_df s → r ∈ vocab_df s')
  ∧ (∀ text p, text ∈ files → p ∈ parse_vocabulary text →
       (CStr p.1, CStr p.2) ∈ vocab_df s')
  ∧ (∀ r, r ∈ vocab_df s' →
       r ∈ vocab_df s
       ∨ ∃ text p, text ∈ files ∧ p ∈ parse_vocabulary text
                   ∧ r = (CStr p.1, CStr p.2)).
Proof.
  intros s'. subst s'. unfold upload_block.
  destruct files as [|f files].
  { cbn. repeat split; try done.
    - intros text p Hin. by apply elem_of_nil in Hin.
    - intros r ?. by left. }
  set (all_vocab := foldl _ _ _).
  assert (∀ p, p ∈ all_vocab
               ↔ ∃ text, text ∈ f :: files ∧ p ∈ parse_vocabulary text)
    as Hall.
  { intros p. unfold all_vocab. rewrite elem_of_collected, elem_of_nil.
    split; [by intros [[]|?]|by right]. }
  unfold merge_upload. destruct all_vocab as [|q pairs] eqn:E.
  { cbn. repeat split; try done.
    - intros text p Hin Hp.
      assert (p ∈ @nil (str * str)) as Hnil by (apply Hall; by exists text).
      by apply elem_of_nil in Hnil.
    - intros r ?. by left. }
  cbn [fst vocab_df flashcards current_index show_translation].
  unfold merge, concat_frames. repeat split; try done.
  - intros r Hr. apply elem_of_drop_duplicates, elem_of_app. by left.
  - intros text p Hin Hp.
    apply elem_of_drop_duplicates, elem_of_app. right.
    unfold frame_of_pairs. apply list_elem_of_fmap. exists p.
    split; [done|]. apply Hall. by exists text.
  - intros r [Hr|Hr]%elem_of_drop_duplicates%elem_of_app; [by left|].
    right. unfold frame_of_pairs in Hr.
    apply list_elem_of_fmap in Hr as (p & -> & Hp).
    apply Hall in Hp as (text & Hin & Hp). by exists text, p.
Qed.

Lemma upload_block_grows_witness :
  let A := (CStr (lit "cat"), CStr (lit "Katze")) in
  let s := {| vocab_df := [A]; flashcards := [A]; current_index := 0;
              show_translation := true |} in
  let text := lit "dog - Hund" in
  let p := (lit "dog", lit "Hund") in
  A ∈ vocab_df s ∧ text ∈ [text] ∧ p ∈ parse_vocabulary text
  ∧ A ∈ vocab_df (upload_block [text] s).1
  ∧ (CStr p.1, CStr p.2) ∈ vocab_df (upload_block [text] s).1.
Proof.
  intros A s text p.
  assert (A ∈ vocab_df s) as HA by left.
  assert (text ∈ [text]) as Ht by left.
  assert (p ∈ parse_vocabulary text) as Hp by left.
  destruct (upload_block_grows [text] s) as (_ & _ & _ & Hkeep & Hadd & _).
  split; [exact HA|]. split; [exact Ht|]. split; [exact Hp|].
  split; [exact (Hkeep A HA)|exact (Hadd text p Ht Hp)].
Defined.

(** ** Runs of the script *)

Section runs.

Implicit Types (s : session_state) (w : world) (i : interaction).

Lemma getitem_in_range {A} (l : list A) (k : Z) :
  (0 ≤ k < Z.of_nat (length l))%Z →
  ∃ a, l !! Z.to_nat k = Some a ∧ getitem l k = Returns a.
Proof.
  intros Hk. unfold getitem.
  destruct (k <? 0)%Z eqn:E; [lia|].
  assert (((0 <=? k) && (k <? Z.of_nat (length l)))%Z = true) as ->.
  { apply andb_true_intro. split; lia. }
  destruct (lookup_lt_is_Some_2 l (Z.to_nat k)) as [a Ha]; [lia|].
  exists a. by rewrite Ha.
Qed.

Lemma start_block_returns click numbers s :
  ∃ s' m, start_block click numbers s = Returns (s', m)
          ∧ vocab_df s' = vocab_df s.
Proof.
  unfold start_block, start_session.
  destruct (bool_decide (click = Some start_button)); [|by exists s, []].
  destruct (vocab_df s) as [|r df] eqn:E; [by exists s, [load_first]|].
  cbn [is_empty]. rewrite sample_frac1_shuffle. cbn [bind].
  eexists _, _. by split.
Qed.

Lemma flashcard_block_active click s :
  flashcards s ≠ [] → position_in_range s →
  ∃ c, flashcards s !! Z.to_nat (current_index s) = Some c
       ∧ flashcard_block click s
         = Returns (clicked_state click s,
                    [card (current_index s + 1) (length (flashcards s)) c.1
                          (if show_translation s then Some c.2 else None)]).
Proof.
  intros Hactive Hrange. unfold flashcard_block, clicked_state.
  destruct (getitem_in_range (flashcards s) (current_index s)) as (c & Hc & Hg);
    [by apply Hrange|].
  exists c. split; [done|].
  destruct (flashcards s) as [|c0 cards] eqn:E; [done|].
  rewrite Hg. cbn [bind].
  destruct (bool_decide (click = Some toggle_button)) eqn:Et;
    destruct (bool_decide (click = Some next_button)) eqn:En.
  - apply bool_decide_eq_true in Et, En. congruence.
  - done.
  - rewrite next_card_active by (by rewrite E). by rewrite E.
  - done.
Qed.


Lemma start_block_store click numbers s s' m :
  start_block click numbers s = Returns (s', m) → vocab_df s' = vocab_df s.
Proof.
  destruct (start_block_returns click numbers s) as (s1 & m1 & -> & Hs).
  by intros [= <- _].
Qed.

Lemma flashcard_block_store click s s' m :
  flashcard_block click s = Returns (s', m) → vocab_df s' = vocab_df s.
Proof.
  unfold flashcard_block. destruct (flashcards s); [by intros [= <- _]|].
  destruct (getitem _ _); [|done..]. cbn [bind].
  destruct (bool_decide (click = Some toggle_button));
    destruct (bool_decide (click = Some next_button)); cbn;
    try (by intros [= <- _]).
  - unfold next_card. cbn. destruct (py_mod _ _); [|done..].
    by intros [= <- _].
  - unfold next_card. destruct (py_mod _ _); [|done..].
    by intros [= <- _].
Qed.


(** The store a run leaves is the store after its upload and overview
    blocks. *)
Lemma script_store i w s :
  init_session_state (disk w) (session w) = Returns s →
  ∃ s', session (after (script i w)) = Some s'
        ∧ vocab_df s'
          = vocab_df (overview_block (clicked i) (disk w)
                        (upload_block (uploaded_files i) s).1).1.2.
Proof.
  intros Hinit. unfold script. rewrite Hinit.
  destruct (upload_block (uploaded_files i) s) as [s1 m1]. cbn [fst].
  destruct (overview_block (clicked i) (disk w) s1) as [[d s2] m2].
  cbn [fst snd].
  destruct (start_block (clicked i) (draws i) s2) as [[s3 m3]| |] eqn:H3;
    [|by exists s2..].
  apply start_block_store in H3.
  destruct (flashcard_block (clicked i) s3) as [[s4 m4]| |] eqn:H4;
    [|by exists s3..].
  apply flashcard_block_store in H4. exists s4. split; [done|]. congruence.
Qed.

Lemma overview_block_session click d d' s :
  (overview_block click d s).1.2 = (overview_block click d' s).1.2
  ∧ (overview_block click d s).2 = (overview_block click d' s).2.
Proof.
  unfold overview_block. destruct (negb (is_empty (vocab_df s))); [|done].
  by repeat case_bool_decide.
Qed.


Lemma upload_block_twice files s :
  upload_block files (upload_block files s).1 = upload_block files s.
Proof.
  unfold upload_block. destruct files as [|f files]; [done|].
  unfold merge_upload. destruct (foldl _ _ _) as [|p pairs]; [done|].
  cbn [fst vocab_df flashcards current_index show_translation].
  by rewrite merge_twice.
Qed.


End runs.



(** X11.  With no cards the flashcard block shows nothing and no click has
    an effect.  With cards and the position among them, it shows the card
    at the position, numbered from one, with the translation only if the
    reveal flag was set when the run began; the click takes effect after
    that: the toggle button turns the reveal flag over and leaves all else,
    the next button moves on.  Toggling twice gives the state back. *)
Theorem flashcard_block_shows_card (click : option button)
    (s : session_state) :
  (flashcards s = [] → flashcard_block click s = Returns (s, []))
  ∧ (flashcards s ≠ [] → position_in_range s →
     ∃ c, flashcards s !! Z.to_nat (current_index s) = Some c
          ∧ flashcard_block click s
            = Returns (clicked_state click s,
                       [card (current_index s + 1) (length (flashcards s))
                             c.1
                             (if show_translation s then Some c.2
                              else None)]))
  ∧ clicked_state (Some toggle_button) s
    = {| vocab_df := vocab_df s; flashcards := flashcards s;
         current_index := current_index s;
         show_translation := negb (show_translation s) |}
  ∧ clicked_state (Some toggle_button) (clicked_state (Some toggle_button) s)
    = s.
Proof.
  split; [|split; [|split]].
  - intros H. unfold flashcard_block. by rewrite H.
  - apply flashcard_block_active.
  - done.
  - by destruct s as [df cards k []].
Qed.

Lemma flashcard_block_shows_card_witness :
  let A := (CStr (lit "cat"), CStr (lit "Katze")) in
  let B := (CStr (lit "dog"), CStr (lit "Hund")) in
  let idle := {| vocab_df := [A]; flashcards := []; current_index := 3;
                 show_translation := true |} in
  let s := {| vocab_df := [A; B]; flashcards := [B; A]; current_index := 1;
              show_translation := false |} in
  (flashcards idle = []
   ∧ flashcard_block (Some next_button) idle = Returns (idle, []))
  ∧ (flashcards s ≠ [] ∧ position_in_range s
     ∧ ∃ c, flashcards s !! 1 = Some c
            ∧ flashcard_block (Some toggle_button) s
              = Returns (clicked_state (Some toggle_button) s,
                         [card 2 2 c.1 None])).
Proof.
  intros A B idle s. split.
  - split; [reflexivity|].
    exact (proj1 (flashcard_block_shows_card (Some next_button) idle)
             eq_refl).
  - assert (flashcards s ≠ []) as Hactive by discriminate.
    assert (position_in_range s) as Hrange by (intros _; cbn; lia).
    split; [exact Hactive|]. split; [exact Hrange|].
    exact (proj1 (proj2 (flashcard_block_shows_card (Some toggle_button) s))
             Hactive Hrange).
Defined.


(** X13.  Clearing does not last while files are in the uploader.  With
    texts from which a pair is parsed, the run in which the clear button is
    pressed leaves an empty store and no cards, and the next run with the
    same files, whatever is pressed in it but the clear button, leaves the
    store with the pairs of the files again. *)
Theorem clear_then_rerun (files : list str) (s : session_state) (d : file)
    (numbers numbers' : list nat) (click : option button) :
  let all_vocab :=
    foldl (λ all text, all ++ parse_vocabulary text) [] files in
  let cleared :=
    after (script {| uploaded_files := files; clicked := Some clear_button;
                     draws := numbers |}
                  {| disk := d; session := Some s |}) in
  let again :=
    after (script {| uploaded_files := files; clicked := click;
                     draws := numbers' |} cleared) in
  all_vocab ≠ [] → click ≠ Some clear_button →
  (∃ s1, session cleared = Some s1 ∧ vocab_df s1 = [] ∧ flashcards s1 = [])
  ∧ (∃ s2, session again = Some s2
           ∧ vocab_df s2 = drop_duplicates (frame_of_pairs all_vocab)).
Proof.
  intros all_vocab cleared again Hall Hclick.
  assert (∀ s0, upload_block files s0 = merge_upload all_vocab s0) as Hup.
  { intros s0. unfold upload_block. destruct files; [done|done]. }
  assert (∃ s1, cleared = {| disk := d; session := Some s1 |}
                ∧ vocab_df s1 = [] ∧ flashcards s1 = []) as (s1 & Hc & Hv & Hf).
  { unfold cleared, script.
    cbn [init_session_state disk session uploaded_files clicked draws].
    rewrite Hup. destruct all_vocab as [|p pairs] eqn:E; [done|].
    cbn [merge_upload]. rewrite overview_block_clear.
    cbn [vocab_df].
    assert (merge (vocab_df s) (frame_of_pairs (p :: pairs)) ≠ []) as Hne.
    { intros Hnil.
      assert ((CStr p.1, CStr p.2)
              ∈ merge (vocab_df s) (frame_of_pairs (p :: pairs))) as Hin.
      { apply elem_of_drop_duplicates, elem_of_app. right. left. }
      rewrite Hnil in Hin. by apply elem_of_nil in Hin. }
    destruct (merge (vocab_df s) (frame_of_pairs (p :: pairs))); [done|].
    cbn [is_empty]. unfold start_block.
    rewrite bool_decide_eq_false_2 by discriminate.
    unfold flashcard_block, clear_vocabularies. cbn.
    eexists. by split. }
  split; [exists s1; by rewrite Hc|].
  destruct (script_store {| uploaded_files := files; clicked := click;
                            draws := numbers' |} cleared s1)
    as (s2 & Hs2 & Hstore).
  { by rewrite Hc. }
  exists s2. split; [done|]. rewrite Hstore.
  cbn [uploaded_files clicked]. rewrite Hup.
  destruct all_vocab as [|p pairs] eqn:E; [done|].
  cbn [merge_upload fst]. unfold overview_block.
  cbn [vocab_df]. destruct (negb _); [|by rewrite Hv].
  rewrite (bool_decide_eq_false_2 (click = Some clear_button)) by done.
  case_bool_decide; cbn; by rewrite Hv.
Qed.

Lemma clear_then_rerun_witness :
  let files := [lit "dog - Hund"] in
  let A := (CStr (lit "cat"), CStr (lit "Katze")) in
  let s := {| vocab_df := [A]; flashcards := [A]; current_index := 0;
              show_translation := false |} in
  let cleared :=
    after (script {| uploaded_files := files; clicked := Some clear_button;
                     draws := [] |}
                  {| disk := Absent; session := Some s |}) in
  let again :=
    after (script {| uploaded_files := files; clicked := Some toggle_button;
                     draws := [] |} cleared) in
  foldl (λ all text, all ++ parse_vocabulary text) [] files ≠ []
  ∧ Some toggle_button ≠ Some clear_button
  ∧ (∃ s1, session cleared = Some s1 ∧ vocab_df s1 = [] ∧ flashcards s1 = [])
  ∧ (∃ s2, session again = Some s2
           ∧ vocab_df s2 = [(CStr (lit "dog"), CStr (lit "Hund"))]).
Proof.
  intros files A s cleared again.
  assert (foldl (λ all text, all ++ parse_vocabulary text) [] files ≠ [])
    as Hall by discriminate.
  assert (Some toggle_button ≠ Some clear_button) as Hclick by discriminate.
  split; [exact Hall|]. split; [exact Hclick|].
  exact (clear_then_rerun files s Absent [] [] (Some toggle_button)
           Hall Hclick).
Defined.

Lemma flashcard_block_none (s s' : session_state) (m : list message) :
  flashcard_block None s = Returns (s', m) → s' = s.
Proof.
  unfold flashcard_block. destruct (flashcards s); [by intros [= <- _]|].
  destruct (getitem _ _); [|done..]. cbn. by intros [= <- _].
Qed.

(** X14.  A run in which no button is pressed and which goes through can be
    repeated without any change: the second run leaves the same world and
    shows the same as the first.  The files in the uploader are merged
    again in every run, and merging them again adds nothing. *)
Theorem rerun_changes_nothing (i : interaction) (w : world) :
  clicked i = None →
  stopped (script i w) = None →
  script i (after (script i w)) = script i w.
Proof.
  destruct i as [files click numbers]. cbn [clicked]. intros ->.
  assert (∀ w0 s0,
    init_session_state (disk w0) (session w0) = Returns s0 →
    script {| uploaded_files := files; clicked := None; draws := numbers |} w0
    = match flashcard_block None (upload_block files s0).1 with
      | Returns (s4, m4) =>
          {| after := {| disk := disk w0; session := Some s4 |};
             shown := (upload_block files s0).2
                      ++ (if is_empty (vocab_df (upload_block files s0).1)
                          then [nothing_loaded] else [])
                      ++ [] ++ m4;
             stopped := None |}
      | failed =>
          {| after := {| disk := disk w0;
                         session := Some (upload_block files s0).1 |};
             shown := (upload_block files s0).2
                      ++ (if is_empty (vocab_df (upload_block files s0).1)
                          then [nothing_loaded] else [])
                      ++ [];
             stopped := fault_of failed |}
      end) as Hrun.
  { intros w0 s0 Hinit. unfold script. rewrite Hinit.
    cbn [uploaded_files clicked draws].
    destruct (upload_block files s0) as [s1 m1]. cbn [fst snd].
    unfold overview_block, start_block.
    rewrite !(bool_decide_eq_false_2 (None = Some _)) by discriminate.
    destruct (is_empty (vocab_df s1)); cbn;
      by destruct (flashcard_block None s1) as [[s4 m4]| |]. }
  destruct (init_session_state (disk w) (session w)) as [s| |] eqn:Hinit;
    [|unfold script; by rewrite Hinit..].
  rewrite (Hrun w s Hinit).
  destruct (flashcard_block None (upload_block files s).1)
    as [[s4 m4]| |] eqn:Hcard; [|done..].
  intros _. pose proof (flashcard_block_none _ _ _ Hcard) as ->.
  cbn [after].
  rewrite (Hrun {| disk := disk w; session := Some (upload_block files s).1 |}
             (upload_block files s).1 eq_refl).
  cbn [disk]. rewrite upload_block_twice, Hcard. done.
Qed.

Lemma rerun_changes_nothing_witness :
  let i := {| uploaded_files := [lit "dog - Hund"; lit "cat: Katze"];
              clicked := None; draws := [] |} in
  let w := {| disk := Absent; session := None |} in
  clicked i = None
  ∧ stopped (script i w) = None
  ∧ script i (after (script i w)) = script i w.
Proof.
  intros i w.
  assert (clicked i = None) as Hclick by reflexivity.
  assert (stopped (script i w) = None) as Hrun by reflexivity.
  split; [exact Hclick|]. split; [exact Hrun|].
  exact (rerun_changes_nothing i w Hclick Hrun).
Defined.

(** X15.  The file is read only when a browser session begins.  Once the
    session state exists, a run shows the same, leaves the same session
    state and stops or goes through in the same way whatever is on disk. *)
Theorem script_reads_file_once (i : interaction) (s : session_state)
    (d d' : file) :
  let r := script i {| disk := d; session := Some s |} in
  let r' := script i {| disk := d'; session := Some s |} in
  session (after r) = session (after r')
  ∧ shown r = shown r'
  ∧ stopped r = stopped r'.
Proof.
  unfold script. cbn [init_session_state disk session].
  destruct (upload_block (uploaded_files i) s) as [s1 m1].
  pose proof (overview_block_session (clicked i) d d' s1) as [Hs Hm].
  destruct (overview_block (clicked i) d s1) as [[da sa] ma].
  destruct (overview_block (clicked i) d' s1) as [[db sb] mb].
  cbn in Hs, Hm. subst sb mb.
  destruct (start_block (clicked i) (draws i) sa) as [[s3 m3]| |]; [|done..].
  by destruct (flashcard_block (clicked i) s3) as [[s4 m4]| |].
Qed.

(** ** Writing and reading the file *)

Section csv.

Import Csv.

Implicit Types (s rest w a b : str) (ls : list (list str)) (fs : list str)
  (c x : char).

Local Abbreviation tk ls fs w m :=
  {| lines := ls; fields := fs; word := w; mode := m |}.












End csv.

Section reading.

Import Csv.

Implicit Types (values : list str) (v : str) (df : DataFrame).










End reading.





(** ** What a run keeps *)

Section keeps.

Implicit Types (s : session_state) (w : world) (i : interaction) (r : row).

Lemma upload_block_keeps files s r :
  r ∈ vocab_df s → r ∈ vocab_df (upload_block files s).1.
Proof.
  intros Hr. unfold upload_block. destruct files as [|f files]; [done|].
  unfold merge_upload. destruct (foldl _ _ _) as [|p pairs]; [done|].
  cbn [fst vocab_df]. apply elem_of_drop_duplicates, elem_of_app. by left.
Qed.

Lemma overview_block_keeps click d s :
  click ≠ Some clear_button → (overview_block click d s).1.2 = s.
Proof.
  intros Hclick. unfold overview_block.
  destruct (negb (is_empty (vocab_df s))); [|done].
  rewrite (bool_decide_eq_false_2 (click = Some clear_button)) by done.
  by case_bool_decide.
Qed.

Lemma flashcard_block_cards click s s' m :
  flashcard_block click s = Returns (s', m) → flashcards s' = flashcards s.
Proof.
  unfold flashcard_block. destruct (flashcards s) eqn:E;
    [intros [= <- _]; by rewrite E|].
  destruct (getitem _ _); [|done..]. cbn [bind].
  destruct (bool_decide (click = Some toggle_button));
    destruct (bool_decide (click = Some next_button));
    unfold next_card; cbn;
    try destruct (py_mod _ _); try done; intros [= <- _]; by rewrite ?E.
Qed.

Lemma script_cards i w s :
  init_session_state (disk w) (session w) = Returns s →
  clicked i ≠ Some start_button → clicked i ≠ Some clear_button →
  ∃ s', session (after (script i w)) = Some s'
        ∧ flashcards s' = flashcards s.
Proof.
  intros Hinit Hstart Hclear. unfold script. rewrite Hinit.
  destruct (upload_block_session (uploaded_files i) s) as [Hc _].
  destruct (upload_block (uploaded_files i) s) as [s1 m1]. cbn [fst] in Hc.
  pose proof (overview_block_keeps (clicked i) (disk w) s1 Hclear) as Ho.
  destruct (overview_block (clicked i) (disk w) s1) as [[d s2] m2].
  cbn in Ho. subst s2. unfold start_block.
  rewrite bool_decide_eq_false_2 by done.
  destruct (flashcard_block (clicked i) s1) as [[s4 m4]| |] eqn:H4;
    [|by exists s1..].
  apply flashcard_block_cards in H4. exists s4. split; [done|]. congruence.
Qed.

End keeps.

(** X17.  Only the clear button takes rows out of the store: in a run in
    which it is not pressed, every row the store had is in the store the
    run leaves. *)
Theorem script_keeps_rows (i : interaction) (d : file) (s : session_state) :
  clicked i ≠ Some clear_button →
  ∃ s', session (after (script i {| disk := d; session := Some s |}))
        = Some s'
        ∧ ∀ r, r ∈ vocab_df s → r ∈ vocab_df s'.
Proof.
  intros Hclear.
  destruct (script_store i {| disk := d; session := Some s |} s eq_refl)
    as (s' & Hs' & Hstore).
  exists s'. split; [done|]. intros r Hr. rewrite Hstore.
  cbn [disk]. rewrite overview_block_keeps by done.
  by apply upload_block_keeps.
Qed.

Lemma script_keeps_rows_witness :
  let A := (CStr (lit "cat"), CStr (lit "Katze")) in
  let s := {| vocab_df := [A]; flashcards := []; current_index := 0;
              show_translation := false |} in
  let i := {| uploaded_files := [lit "dog - Hund"];
              clicked := Some start_button; draws := [1] |} in
  clicked i ≠ Some clear_button
  ∧ ∃ s', session (after (script i {| disk := Absent; session := Some s |}))
          = Some s'
          ∧ ∀ r, r ∈ vocab_df s → r ∈ vocab_df s'.
Proof.
  intros A s i.
  assert (clicked i ≠ Some clear_button) as Hclear by discriminate.
  split; [exact Hclear|].
  exact (script_keeps_rows i Absent s Hclear).
Defined.

(** X18.  The cards of a session are its own: a run in which neither the
    start nor the clear button is pressed leaves the cards as they are,
    whatever is uploaded into the store, saved or shown in it. *)
Theorem script_keeps_cards (i : interaction) (d : file) (s : session_state) :
  clicked i ≠ Some start_button → clicked i ≠ Some clear_button →
  ∃ s', session (after (script i {| disk := d; session := Some s |}))
        = Some s'
        ∧ flashcards s' = flashcards s.
Proof.
  intros Hstart Hclear.
  by apply (script_cards i {| disk := d; session := Some s |} s).
Qed.

Lemma script_keeps_cards_witness :
  let A := (CStr (lit "cat"), CStr (lit "Katze")) in
  let s := {| vocab_df := [A]; flashcards := [A]; current_index := 0;
              show_translation := false |} in
  let i := {| uploaded_files := [lit "dog - Hund"];
              clicked := Some save_button; draws := [] |} in
  clicked i ≠ Some start_button ∧ clicked i ≠ Some clear_button
  ∧ ∃ s', session (after (script i {| disk := Absent; session := Some s |}))
          = Some s'
          ∧ flashcards s' = [A].
Proof.
  intros A s i.
  assert (clicked i ≠ Some start_button) as Hstart by discriminate.
  assert (clicked i ≠ Some clear_button) as Hclear by discriminate.
  split; [exact Hstart|]. split; [exact Hclear|].
  exact (script_keeps_cards i Absent s Hstart Hclear).
Defined.
